(** * The SyncTarget export controller of kcp

    A shallow embedding of
    [pkg/reconciler/workload/synctargetexports/synctargetexports_controller.go]
    and of the properties its specification states about it.

    The controller is effectful Go code: it reads informer caches, calls the
    two reconcilers, talks to the API server and drives a rate-limited work
    queue.  It is embedded as a state-and-trace monad: the state is the work
    queue, the trace is the ordered list of calls the controller makes to its
    collaborators (queue, error sink, logger, reconcilers, API client).  The
    collaborators whose code is outside the controller file are fields of an
    environment record [Env]. *)

From stdpp Require Import base option list strings gmap sorting.
From Stdlib Require Import Ascii Lia.

Local Open Scope string_scope.
Local Open Scope list_scope.

Set Warnings "-register-all".

(** ** Data model *)

(** Modelled from the spec: the API types of [pkg/apis/...] are not among the
    sources; the records below carry the fields that the controller reads or
    writes (spec, section 3). *)
Record ObjectMeta := mkObjectMeta {
  Name : string;
  UID : string;
  ResourceVersion : string;
  Annotations : gmap string string
}.

(** Modelled from the spec: one declared export reference, {path, name}. *)
Record APIExportReference := mkAPIExportReference {
  Export : string;
  Path : string
}.

(** Modelled from the spec: one entry of the derived status list. *)
Record ResourceToSync := mkResourceToSync {
  Group : string;
  Resource : string;
  Versions : list string;
  IdentityHash : string;
  State : string
}.

(** Modelled from the spec: the spec part of a SyncTarget. *)
Record SyncTargetSpec := mkSyncTargetSpec {
  SupportedAPIExports : list APIExportReference
}.

(** Modelled from the spec: the status part of a SyncTarget. *)
Record SyncTargetStatus := mkSyncTargetStatus {
  SyncedResources : list ResourceToSync
}.

(** Modelled from the spec: the primary object. *)
Record SyncTarget := mkSyncTarget {
  stMeta : ObjectMeta;
  Spec : SyncTargetSpec;
  Status : SyncTargetStatus
}.

(** Modelled from the spec: the export object; the controller only reads its
    metadata. *)
Record APIExport := mkAPIExport {
  exMeta : ObjectMeta;
  LatestResourceSchemas : list string
}.

(** The zero value of [metav1.ObjectMeta], as in a struct literal that leaves
    the field out. *)
Definition emptyMeta : ObjectMeta :=
  {| Name := ""; UID := ""; ResourceVersion := ""; Annotations := ∅ |}.

Global Instance APIExportReference_eq_dec : EqDecision APIExportReference.
Proof. solve_decision. Defined.

Global Instance ResourceToSync_eq_dec : EqDecision ResourceToSync.
Proof. solve_decision. Defined.

(** What an event handler or an indexer hands over as [interface{}]. *)
Inductive Object :=
| ObjSyncTarget (st : SyncTarget)
| ObjAPIExport (ex : APIExport)
| ObjDeletedFinalStateUnknown (key : string) (obj : Object)
| ObjNil
| ObjOther (typeName : string).

(** Go [error] values that are not nil.  [ErrWrapf] is [fmt.Errorf] with a
    [%w] verb, [ErrAggregate] the aggregate of [utilerrors]. *)
Inductive Err :=
| ErrNotFound (resource name : string)
| ErrText (msg : string)
| ErrWrapf (format subject : string) (cause : Err)
| ErrAggregate (errs : list Err).

(** [apierrors.IsNotFound]. *)
Definition IsNotFound (e : Err) : bool :=
  match e with ErrNotFound _ _ => true | _ => false end.

(** [errors.NewAggregate]: nil for an empty list, otherwise the aggregate.
    (An [Err] is never the nil error, so the nil filtering drops nothing.) *)
Definition NewAggregate (errs : list Err) : option Err :=
  match errs with
  | [] => None
  | _ :: _ => Some (ErrAggregate errs)
  end.

(** ** The trace of calls *)

Inductive Severity := Info | InfoV2 | Error.

Inductive LogArg := AStr (s : string) | AErr (e : Err).

Inductive ReconcilerStep := ExportStep | APICompatibleStep.

Inductive PatchType := JSONPatchType | MergePatchType | StrategicMergePatchType.

Inductive Event :=
| HandleError (e : Err)                                (* runtime.HandleError *)
| Klog (sev : Severity) (format : string) (args : list LogArg)
| QueueAdd (key : string)
| QueueGet (key : string)
| QueueDone (key : string)
| QueueAddRateLimited (key : string)
| QueueForget (key : string)
| Reconcile (step : ReconcilerStep) (input : SyncTarget)
| Patch (clusterPath name : string) (pt : PatchType) (data : string)
        (subresources : list string).

Definition isPatch (e : Event) : bool :=
  match e with Patch _ _ _ _ _ => true | _ => false end.

Definition isQueueEvent (e : Event) : bool :=
  match e with
  | QueueAdd _ | QueueGet _ | QueueDone _
  | QueueAddRateLimited _ | QueueForget _ => true
  | _ => false
  end.

(** The patch calls of a trace, in order. *)
Definition patchCalls (t : list Event) : list Event := filter (fun e => isPatch e = true) t.

(** ** The work queue *)

(** Modelled from the spec: the Work Queue of section 4.2 (the rate-limiting
    queue of client-go, outside the sources).  [queue] is the FIFO of visible
    keys, [dirty] the keys that need processing, [processing] the keys
    between [Get] and [Done], [failures] the per-key backoff state and
    [waiting] the keys held back by [AddRateLimited] with their delay. *)
Record WorkQueue := mkWorkQueue {
  queue : list string;
  dirty : gset string;
  processing : gset string;
  failures : gmap string nat;
  waiting : list (string * nat);
  shuttingDown : bool
}.

Definition emptyQueue : WorkQueue :=
  {| queue := []; dirty := ∅; processing := ∅; failures := ∅;
     waiting := []; shuttingDown := false |}.

(** Modelled from the spec: the number of rate-limited re-adds of a key since
    its last [Forget]. *)
Definition NumRequeues (q : WorkQueue) (key : string) : nat :=
  default 0 (failures q !! key).

(** Modelled from the spec: the exponential per-key backoff, in units of the
    minimum delay. *)
Definition backoff (requeues : nat) : nat := 2 ^ requeues.

Definition minBackoff : nat := backoff 0.

(** Modelled from the spec: the delay the next [AddRateLimited] of the key
    would apply. *)
Definition nextDelay (q : WorkQueue) (key : string) : nat :=
  backoff (NumRequeues q key).

(** Modelled from the spec: [Add] with its deduplication. *)
Definition wqAdd (key : string) (q : WorkQueue) : WorkQueue :=
  if shuttingDown q then q
  else if decide (key ∈ dirty q) then q
  else if decide (key ∈ processing q) then
    {| queue := queue q; dirty := {[key]} ∪ dirty q; processing := processing q;
       failures := failures q; waiting := waiting q; shuttingDown := shuttingDown q |}
  else
    {| queue := queue q ++ [key]; dirty := {[key]} ∪ dirty q; processing := processing q;
       failures := failures q; waiting := waiting q; shuttingDown := shuttingDown q |}.

(** The three ways a call of [Get] can go for a worker that runs alone:
    an item, the shut-down signal, or waiting for ever on an empty queue. *)
Inductive GetOutcome :=
| GotItem (key : string)
| GotShutDown
| GetBlocks.

(** Modelled from the spec: [Get]. *)
Definition wqGet (q : WorkQueue) : GetOutcome * WorkQueue :=
  match queue q with
  | [] => (if shuttingDown q then GotShutDown else GetBlocks, q)
  | key :: rest =>
      (GotItem key,
       {| queue := rest; dirty := dirty q ∖ {[key]}; processing := {[key]} ∪ processing q;
          failures := failures q; waiting := waiting q; shuttingDown := shuttingDown q |})
  end.

(** Modelled from the spec: [Done]; a key that became dirty while it was
    processed is queued again. *)
Definition wqDone (key : string) (q : WorkQueue) : WorkQueue :=
  {| queue := if decide (key ∈ dirty q) then queue q ++ [key] else queue q;
     dirty := dirty q; processing := processing q ∖ {[key]};
     failures := failures q; waiting := waiting q; shuttingDown := shuttingDown q |}.

(** Modelled from the spec: [AddRateLimited]; the key is held back for the
    current backoff delay and its backoff state grows. *)
Definition wqAddRateLimited (key : string) (q : WorkQueue) : WorkQueue :=
  {| queue := queue q; dirty := dirty q; processing := processing q;
     failures := <[key := S (NumRequeues q key)]> (failures q);
     waiting := waiting q ++ [(key, nextDelay q key)];
     shuttingDown := shuttingDown q |}.

(** Modelled from the spec: [Forget] resets the backoff state of the key. *)
Definition wqForget (key : string) (q : WorkQueue) : WorkQueue :=
  {| queue := queue q; dirty := dirty q; processing := processing q;
     failures := delete key (failures q); waiting := waiting q;
     shuttingDown := shuttingDown q |}.

(** Modelled from the spec: the delay of the oldest held-back key elapses and
    the key becomes visible again through [Add]. *)
Definition wqDelayElapsed (q : WorkQueue) : WorkQueue :=
  match waiting q with
  | [] => q
  | (key, _) :: rest =>
      wqAdd key
        {| queue := queue q; dirty := dirty q; processing := processing q;
           failures := failures q; waiting := rest; shuttingDown := shuttingDown q |}
  end.

(** Modelled from the spec: [ShutDown]. *)
Definition wqShutDown (q : WorkQueue) : WorkQueue :=
  {| queue := queue q; dirty := dirty q; processing := processing q;
     failures := failures q; waiting := waiting q; shuttingDown := true |}.

(** ** The collaborators of the controller *)

(** The functions and objects the controller file calls but does not define.
    Logical cluster names and paths are strings; [NewPath] and [Name.Path]
    only change the Go type. *)
Record Env := mkEnv {
  (* kcp-dev/apimachinery, pkg/cache *)
  MetaClusterNamespaceKeyFunc : Object -> Err + string;
  SplitMetaClusterNamespaceKey : string -> Err + (string * string * string);
  (* kcp-dev/logicalcluster: [From(obj)] and [path.Join(name).String()] *)
  logicalclusterFrom : ObjectMeta -> string;
  pathJoin : string -> string -> string;
  (* encoding/json and evanphx/json-patch *)
  jsonMarshal : SyncTarget -> Err + string;
  CreateMergePatch : string -> string -> Err + string;
  (* the informer caches: [syncTargetLister.Cluster(c).Get(n)],
     [syncTargetIndexer.IndexKeys] and [syncTargetIndexer.GetByKey] *)
  syncTargetListerGet : string -> string -> Err + SyncTarget;
  syncTargetIndexKeys : string -> string -> Err + list string;
  syncTargetGetByKey : string -> Err + (Object * bool);
  (* [exportReconciler.reconcile] and [apiCompatibleReconciler.reconcile],
     with the lookups the controller hands them *)
  exportReconcile : SyncTarget -> SyncTarget * option Err;
  apiCompatibleReconcile : SyncTarget -> SyncTarget * option Err;
  (* the answer of [SyncTargets().Patch(...)]; the returned object is dropped *)
  clientPatch : string -> string -> PatchType -> string -> list string -> option Err
}.

(** ** Constants *)

Definition ControllerName : string := "kcp-synctarget-export-controller".

Definition indexSyncTargetsByExport : string := ControllerName ++ "ByExport".

Definition indexAPIExportsByAPIResourceSchema : string :=
  ControllerName ++ "ByAPIResourceSchema".

(** [core.LogicalClusterPathAnnotationKey]. *)
Definition LogicalClusterPathAnnotationKey : string := "kcp.io/path".

(** ** The monad: work-queue state and a trace of calls *)

Definition M (A : Type) : Type := WorkQueue -> A * WorkQueue * list Event.

Definition ret {A : Type} (a : A) : M A := fun q => (a, q, []).

Definition bind {A B : Type} (m : M A) (k : A -> M B) : M B :=
  fun q =>
    let '(a, q1, t1) := m q in
    let '(b, q2, t2) := k a q1 in
    (b, q2, t1 ++ t2).

Declare Scope ctl_scope.
Delimit Scope ctl_scope with ctl.
Notation "x <- m ;; k" := (bind m (fun x => k))
  (at level 100, m at next level, right associativity) : ctl_scope.
Notation "m ;; k" := (bind m (fun _ => k))
  (at level 100, right associativity) : ctl_scope.
Local Open Scope ctl_scope.

Definition resultOf {A : Type} (r : A * WorkQueue * list Event) : A := r.1.1.
Definition queueOf {A : Type} (r : A * WorkQueue * list Event) : WorkQueue := r.1.2.
Definition traceOf {A : Type} (r : A * WorkQueue * list Event) : list Event := r.2.

Definition emit (e : Event) : M unit := fun q => (tt, q, [e]).

Definition queueAdd (key : string) : M unit :=
  fun q => (tt, wqAdd key q, [QueueAdd key]).

Definition queueGet : M GetOutcome :=
  fun q =>
    let '(o, q1) := wqGet q in
    (o, q1, match o with GotItem key => [QueueGet key] | _ => [] end).

Definition queueDone (key : string) : M unit :=
  fun q => (tt, wqDone key q, [QueueDone key]).

Definition queueAddRateLimited (key : string) : M unit :=
  fun q => (tt, wqAddRateLimited key q, [QueueAddRateLimited key]).

Definition queueForget (key : string) : M unit :=
  fun q => (tt, wqForget key q, [QueueForget key]).

(** A call of a reconciler step: the call is recorded with its input. *)
Definition reconcile (step : ReconcilerStep) (f : SyncTarget -> SyncTarget * option Err)
    (st : SyncTarget) : M (SyncTarget * option Err) :=
  fun q => (f st, q, [Reconcile step st]).

(** A call of [Patch] on the cluster-scoped SyncTarget client. *)
Definition patchSyncTarget (E : Env) (clusterPath name : string) (pt : PatchType)
    (data : string) (subresources : list string) : M (option Err) :=
  fun q => (clientPatch E clusterPath name pt data subresources, q,
            [Patch clusterPath name pt data subresources]).

(** [for _, x := range l { body }]. *)
Fixpoint forEach {A : Type} (l : list A) (body : A -> M unit) : M unit :=
  match l with
  | [] => ret tt
  | x :: rest => body x ;; forEach rest body
  end.

(** ** [sets.String] *)

Definition string_le (a b : string) : Prop := String.leb a b = true.

Global Instance string_le_dec (a b : string) : Decision (string_le a b).
Proof. unfold string_le. solve_decision. Defined.

(** [keys.Insert(items...)]. *)
Definition setInsert (s : gset string) (items : list string) : gset string :=
  s ∪ list_to_set items.

(** [keys.List()]: the elements in increasing order. *)
Definition setList (s : gset string) : list string :=
  merge_sort string_le (elements s).

(** ** The controller *)

(** [syncTarget.DeepCopy()]: values are not shared in the embedding, so the
    copy is the value itself. *)
Definition DeepCopy (st : SyncTarget) : SyncTarget := st.

(** The dynamic type printed by [%T]. *)
Definition typeOf (obj : Object) : string :=
  match obj with
  | ObjSyncTarget _ => "*v1alpha1.SyncTarget"
  | ObjAPIExport _ => "*v1alpha1.APIExport"
  | ObjDeletedFinalStateUnknown _ _ => "cache.DeletedFinalStateUnknown"
  | ObjNil => "<nil>"
  | ObjOther t => t
  end.

Definition enqueueSyncTarget (E : Env) (obj : Object) (logSuffix : string) : M unit :=
  match MetaClusterNamespaceKeyFunc E obj with
  | inl err => emit (HandleError err)
  | inr key =>
      emit (Klog InfoV2 "Queueing SyncTarget %q%s" [AStr key; AStr logSuffix]) ;;
      queueAdd key
  end.

(** The three handlers registered on the SyncTarget informer.  The informer
    is typed, so the type assertions of [UpdateFunc] are on SyncTargets.
    [equality.Semantic.DeepEqual] on the two lists is structural equality:
    it takes a nil and an empty slice for equal, as lists do, and none of
    its special cases (quantities, times, selectors) occurs in the elements. *)
Definition syncTargetAddFunc (E : Env) (obj : Object) : M unit :=
  enqueueSyncTarget E obj "".

Definition syncTargetUpdateFunc (E : Env) (old obj : SyncTarget) : M unit :=
  let oldCluster := old in
  let newCluster := obj in
  if negb (bool_decide (SupportedAPIExports (Spec oldCluster)
                        = SupportedAPIExports (Spec newCluster)))
     || negb (bool_decide (SyncedResources (Status oldCluster)
                           = SyncedResources (Status newCluster)))
  then enqueueSyncTarget E (ObjSyncTarget obj) ""
  else ret tt.

Definition syncTargetDeleteFunc (E : Env) (obj : Object) : M unit := ret tt.

Definition enqueueAPIExport (E : Env) (obj : Object) (logSuffix : string) : M unit :=
  let obj := match obj with ObjDeletedFinalStateUnknown _ d => d | _ => obj end in
  match obj with
  | ObjAPIExport export =>
      let keys : gset string := ∅ in
      let path := default "" (Annotations (exMeta export) !! LogicalClusterPathAnnotationKey) in
      let byPath :=
        if decide (path <> "") then
          match syncTargetIndexKeys E indexSyncTargetsByExport
                  (pathJoin E path (Name (exMeta export))) with
          | inl err => inl err
          | inr pathKeys => inr (setInsert keys pathKeys)
          end
        else inr keys in
      match byPath with
      | inl err => emit (HandleError err)
      | inr keys =>
          match syncTargetIndexKeys E indexSyncTargetsByExport
                  (pathJoin E (logicalclusterFrom E (exMeta export)) (Name (exMeta export))) with
          | inl err => emit (HandleError err)
          | inr clusterKeys =>
              let keys := setInsert keys clusterKeys in
              forEach (setList keys) (fun key =>
                match syncTargetGetByKey E key with
                | inl err => emit (HandleError err)
                | inr (syncTarget, _) =>
                    enqueueSyncTarget E syncTarget
                      (" because of APIExport " ++ key ++ logSuffix)
                end)
          end
      end
  | _ =>
      emit (HandleError (ErrText ("obj is supposed to be a APIExport, but is " ++ typeOf obj)))
  end.

(** The three handlers registered on the APIExport informer. *)
Definition apiExportAddFunc (E : Env) (obj : Object) : M unit := enqueueAPIExport E obj "".
Definition apiExportUpdateFunc (E : Env) (old obj : Object) : M unit := enqueueAPIExport E obj "".
Definition apiExportDeleteFunc (E : Env) (obj : Object) : M unit := enqueueAPIExport E obj "".

(** The "before" document of the status patch: only the observed status. *)
Definition oldDocument (syncTarget : SyncTarget) : SyncTarget :=
  {| stMeta := emptyMeta;
     Spec := {| SupportedAPIExports := [] |};
     Status := {| SyncedResources := SyncedResources (Status syncTarget) |} |}.

(** The "after" document: the new status, with UID and resource version of
    the observed object. *)
Definition newDocument (syncTarget currentSyncTarget : SyncTarget) : SyncTarget :=
  {| stMeta := {| Name := "";
                  UID := UID (stMeta syncTarget);
                  ResourceVersion := ResourceVersion (stMeta syncTarget);
                  Annotations := ∅ |};
     Spec := {| SupportedAPIExports := [] |};
     Status := {| SyncedResources := SyncedResources (Status currentSyncTarget) |} |}.

(** [errs = append(errs, err)] under [if err != nil]. *)
Definition appendErr (errs : list Err) (err : option Err) : list Err :=
  match err with
  | Some e => errs ++ [e]
  | None => errs
  end.

Definition process (E : Env) (key : string) : M (option Err) :=
  match SplitMetaClusterNamespaceKey E key with
  | inl err => emit (HandleError err) ;; ret None
  | inr (cluster, _, name) =>
  let errs : list Err := [] in
  match syncTargetListerGet E cluster name with
  | inl err =>
      emit (Klog Error "Failed to get syncTarget with key %q because: %v"
                 [AStr key; AErr err]) ;;
      ret None
  | inr syncTarget =>
  emit (Klog Info "Processing syncTarget %q" [AStr key]) ;;
  let currentSyncTarget := DeepCopy syncTarget in
  r <- reconcile ExportStep (exportReconcile E) currentSyncTarget ;;
  let currentSyncTarget := r.1 in
  let errs := appendErr errs r.2 in
  r <- reconcile APICompatibleStep (apiCompatibleReconcile E) currentSyncTarget ;;
  let currentSyncTarget := r.1 in
  let errs := appendErr errs r.2 in
  if (0 <? length errs)%nat then ret (NewAggregate errs)
  else
  if bool_decide (SyncedResources (Status syncTarget)
                  = SyncedResources (Status currentSyncTarget))
  then ret None
  else
  match jsonMarshal E (oldDocument syncTarget) with
  | inl err =>
      ret (Some (ErrWrapf "failed to Marshal old data for placement %s: %w" key err))
  | inr oldData =>
  match jsonMarshal E (newDocument syncTarget currentSyncTarget) with
  | inl err =>
      ret (Some (ErrWrapf "failed to Marshal new data for LocationDomain %s: %w" key err))
  | inr newData =>
  match CreateMergePatch E oldData newData with
  | inl err =>
      emit (Klog Error "Failed to create merge patch for syncTarget %q because: %v"
                 [AStr key; AErr err]) ;;
      ret (Some err)
  | inr patchBytes =>
  let clusterName := logicalclusterFrom E (stMeta currentSyncTarget) in
  emit (Klog InfoV2 "Patching synctarget %s|%s with patch %s"
             [AStr clusterName; AStr (Name (stMeta currentSyncTarget)); AStr patchBytes]) ;;
  perr <- patchSyncTarget E clusterName (Name (stMeta currentSyncTarget))
            MergePatchType patchBytes ["status"] ;;
  match perr with
  | Some err =>
      emit (Klog Error "failed to patch sync target status: %v" [AErr err]) ;;
      ret (Some err)
  | None => ret None
  end
  end end end end end.

(** One turn of a worker.  [None] stands for a worker that waits in [Get] on
    an empty queue; [Some b] is the boolean the Go function returns.  The
    deferred [Done] runs last, after either branch. *)
Definition processNextWorkItem (E : Env) : M (option bool) :=
  o <- queueGet ;;
  match o with
  | GetBlocks => ret None
  | GotShutDown => ret (Some false)
  | GotItem key =>
      continue <-
        (err <- process E key ;;
         match err with
         | Some err =>
             emit (HandleError (ErrWrapf "failed to sync %q: %w" key err)) ;;
             queueAddRateLimited key ;;
             ret true
         | None =>
             queueForget key ;;
             ret true
         end) ;;
      queueDone key ;;
      ret (Some continue)
  end.

(** How a worker loop that is given [fuel] turns stands afterwards. *)
Inductive WorkerState := Running | Waiting | Exited.

(** [for c.processNextWorkItem(ctx) {}], cut after [fuel] turns. *)
Fixpoint startWorker (E : Env) (fuel : nat) : M WorkerState :=
  match fuel with
  | O => ret Running
  | S fuel' =>
      continue <- processNextWorkItem E ;;
      match continue with
      | Some true => startWorker E fuel'
      | Some false => ret Exited
      | None => ret Waiting
      end
  end.

(** ** A concrete environment

    Executable stand-ins for the collaborators, used to run the controller on
    concrete inputs.  Keys are "cluster|name", paths are joined with ":", the
    cluster of an object is its "kcp.io/cluster" annotation. *)

Fixpoint splitAt (sep : Ascii.ascii) (s : string) : string * option string :=
  match s with
  | EmptyString => (EmptyString, None)
  | String c rest =>
      if Ascii.eqb c sep then (EmptyString, Some rest)
      else let '(a, b) := splitAt sep rest in (String c a, b)
  end.

Definition refSplitKey (key : string) : Err + (string * string * string) :=
  match splitAt "|"%char key with
  | (name, None) => inr ("", "", name)
  | (cluster, Some rest) =>
      match splitAt "|"%char rest with
      | (name, None) => inr (cluster, "", name)
      | _ => inl (ErrText ("unexpected key format: " ++ key))
      end
  end.

Definition refClusterOf (m : ObjectMeta) : string :=
  default "" (Annotations m !! "kcp.io/cluster").

Definition refKeyFunc (obj : Object) : Err + string :=
  match obj with
  | ObjSyncTarget st => inr (refClusterOf (stMeta st) ++ "|" ++ Name (stMeta st))%string
  | ObjAPIExport ex => inr (refClusterOf (exMeta ex) ++ "|" ++ Name (exMeta ex))%string
  | _ => inl (ErrText "object has no meta")
  end.

Definition refPathJoin (path name : string) : string :=
  if decide (path = "") then name else (path ++ ":" ++ name)%string.

(** A store is a list of SyncTargets; the by-export index is a list of
    (export key, SyncTarget key) pairs. *)
Definition refGet (store : list SyncTarget) (cluster name : string) : Err + SyncTarget :=
  match List.find (fun st => bool_decide (refClusterOf (stMeta st) = cluster)
                             && bool_decide (Name (stMeta st) = name)) store with
  | Some st => inr st
  | None => inl (ErrNotFound "synctargets" name)
  end.

Definition refIndexKeys (index : list (string * string)) (indexName value : string)
    : Err + list string :=
  if decide (indexName = indexSyncTargetsByExport)
  then inr (List.map snd (List.filter (fun p => bool_decide (p.1 = value)) index))
  else inl (ErrText ("Index with name " ++ indexName ++ " does not exist")).

Definition refGetByKey (store : list SyncTarget) (key : string) : Err + (Object * bool) :=
  match List.find (fun st => match refKeyFunc (ObjSyncTarget st) with
                            | inr k => bool_decide (k = key)
                            | inl _ => false
                            end) store with
  | Some st => inr (ObjSyncTarget st, true)
  | None => inr (ObjNil, false)
  end.

Definition refEnv (store : list SyncTarget) (index : list (string * string))
    (exportStep compatStep : SyncTarget -> SyncTarget * option Err)
    (marshal : SyncTarget -> Err + string)
    (patchAnswer : option Err) : Env :=
  {| MetaClusterNamespaceKeyFunc := refKeyFunc;
     SplitMetaClusterNamespaceKey := refSplitKey;
     logicalclusterFrom := refClusterOf;
     pathJoin := refPathJoin;
     jsonMarshal := marshal;
     CreateMergePatch := fun old new => inr ("patch(" ++ old ++ "->" ++ new ++ ")")%string;
     syncTargetListerGet := refGet store;
     syncTargetIndexKeys := refIndexKeys index;
     syncTargetGetByKey := refGetByKey store;
     exportReconcile := exportStep;
     apiCompatibleReconcile := compatStep;
     clientPatch := fun _ _ _ _ _ => patchAnswer |}.

(** ** Vocabulary of the statements *)

(** The object [process] works on: the key splits and the lister has it. *)
Definition fetched (E : Env) (key : string) : option SyncTarget :=
  match SplitMetaClusterNamespaceKey E key with
  | inl _ => None
  | inr (cluster, _, name) =>
      match syncTargetListerGet E cluster name with
      | inl _ => None
      | inr syncTarget => Some syncTarget
      end
  end.

(** What the two steps return on the working copy of [syncTarget]. *)
Definition afterExport (E : Env) (syncTarget : SyncTarget) : SyncTarget * option Err :=
  exportReconcile E (DeepCopy syncTarget).

Definition afterAPICompatible (E : Env) (syncTarget : SyncTarget)
    : SyncTarget * option Err :=
  apiCompatibleReconcile E (afterExport E syncTarget).1.

(** The errors of the two steps, in the order of the steps. *)
Definition collectedErrs (E : Env) (syncTarget : SyncTarget) : list Err :=
  appendErr (appendErr [] (afterExport E syncTarget).2) (afterAPICompatible E syncTarget).2.

(** The status list the chain leaves on the working copy. *)
Definition reconciledResources (E : Env) (syncTarget : SyncTarget) : list ResourceToSync :=
  SyncedResources (Status (afterAPICompatible E syncTarget).1).

(** The calls every pass on a fetched object starts with. *)
Definition chainCalls (E : Env) (key : string) (syncTarget : SyncTarget) : list Event :=
  [ Klog Info "Processing syncTarget %q" [AStr key];
    Reconcile ExportStep (DeepCopy syncTarget);
    Reconcile APICompatibleStep (afterExport E syncTarget).1 ].

(** The one call the persister makes when it has a patch to send. *)
Definition statusPatch (E : Env) (syncTarget : SyncTarget) (patchBytes : string) : Event :=
  let currentSyncTarget := (afterAPICompatible E syncTarget).1 in
  Patch (logicalclusterFrom E (stMeta currentSyncTarget))
        (Name (stMeta currentSyncTarget)) MergePatchType patchBytes ["status"].

(** The merge patch between the two documents, when both marshal. *)
Definition mergePatchOf (E : Env) (syncTarget : SyncTarget) : Err + string :=
  match jsonMarshal E (oldDocument syncTarget) with
  | inl err => inl err
  | inr oldData =>
      match jsonMarshal E (newDocument syncTarget (afterAPICompatible E syncTarget).1) with
      | inl err => inl err
      | inr newData => CreateMergePatch E oldData newData
      end
  end.

(** Reading a trace as a worker's in-flight marker: [Get] of a key sets it,
    [Done] of that key clears it.  The result is [None] when a [Get] comes
    while a key is still in flight or a [Done] comes for a key that is not. *)
Fixpoint inFlightAfter (cur : option string) (t : list Event) : option (option string) :=
  match t with
  | [] => Some cur
  | QueueGet key :: rest =>
      match cur with
      | None => inFlightAfter (Some key) rest
      | Some _ => None
      end
  | QueueDone key :: rest =>
      match cur with
      | Some key' => if decide (key = key') then inFlightAfter None rest else None
      | None => None
      end
  | _ :: rest => inFlightAfter cur rest
  end.

Definition isDoneOf (key : string) (e : Event) : bool :=
  match e with QueueDone k => bool_decide (k = key) | _ => false end.

(** How often [Done] is called for a key in a trace. *)
Definition doneCount (key : string) (t : list Event) : nat :=
  length (filter (fun e => isDoneOf key e = true) t).

Definition isReconcile (e : Event) : bool :=
  match e with Reconcile _ _ => true | _ => false end.

(** The reconciler calls of a trace, in order. *)
Definition reconcileCalls (t : list Event) : list Event :=
  filter (fun e => isReconcile e = true) t.

(** ** Sample objects *)

Definition cowboys : ResourceToSync :=
  {| Group := "wildwest.dev"; Resource := "cowboys"; Versions := ["v1"];
     IdentityHash := "h1"; State := "Accepted" |}.

Definition targetEast : SyncTarget :=
  {| stMeta := {| Name := "east"; UID := "uid-1"; ResourceVersion := "7";
                  Annotations := {["kcp.io/cluster" := "root"]} |};
     Spec := {| SupportedAPIExports := [{| Export := "today-cowboys"; Path := "" |}] |};
     Status := {| SyncedResources := [] |} |}.

Definition targetWest : SyncTarget :=
  {| stMeta := {| Name := "west"; UID := "uid-2"; ResourceVersion := "3";
                  Annotations := {["kcp.io/cluster" := "other"]} |};
     Spec := {| SupportedAPIExports :=
                  [{| Export := "today-cowboys"; Path := "root:org" |}] |};
     Status := {| SyncedResources := [] |} |}.

Definition exportCowboys : APIExport :=
  {| exMeta := {| Name := "today-cowboys"; UID := "uid-e"; ResourceVersion := "1";
                  Annotations := {["kcp.io/cluster" := "root";
                                   "kcp.io/path" := "root:org"]} |};
     LatestResourceSchemas := ["today.cowboys.wildwest.dev"] |}.

Definition withResources (l : list ResourceToSync) (st : SyncTarget) : SyncTarget :=
  {| stMeta := stMeta st; Spec := Spec st; Status := {| SyncedResources := l |} |}.

Definition sampleMarshal (st : SyncTarget) : Err + string :=
  inr ("{uid:" ++ UID (stMeta st) ++ ",rv:" ++ ResourceVersion (stMeta st) ++ ",synced:"
       ++ String.concat "," (List.map Resource (SyncedResources (Status st))) ++ "}")%string.

Definition sampleIndex : list (string * string) :=
  [ ("root:today-cowboys", "root|east");
    ("root:org:today-cowboys", "other|west") ].

(** Both steps succeed; the export step resolves the cowboys schema. *)
Definition envResolves (store : list SyncTarget) : Env :=
  refEnv store sampleIndex
    (fun st => (withResources [cowboys] st, None)) (fun st => (st, None))
    sampleMarshal None.

(** The export step resolves the cowboys schema and reports another
    reference as broken. *)
Definition envExportFails : Env :=
  refEnv [targetEast] sampleIndex
    (fun st => (withResources [cowboys] st, Some (ErrText "export root:missing is broken")))
    (fun st => (st, None))
    sampleMarshal None.

(** The lister answers every [Get] with an error that is not a not-found. *)
Definition envListerDown : Env :=
  {| MetaClusterNamespaceKeyFunc := refKeyFunc;
     SplitMetaClusterNamespaceKey := refSplitKey;
     logicalclusterFrom := refClusterOf;
     pathJoin := refPathJoin;
     jsonMarshal := sampleMarshal;
     CreateMergePatch := fun old new => inr ("patch(" ++ old ++ "->" ++ new ++ ")")%string;
     syncTargetListerGet := fun _ _ => inl (ErrText "informer cache is not synced");
     syncTargetIndexKeys := refIndexKeys sampleIndex;
     syncTargetGetByKey := refGetByKey [targetEast];
     exportReconcile := fun st => (st, None);
     apiCompatibleReconcile := fun st => (st, None);
     clientPatch := fun _ _ _ _ _ => None |}.

(** A queue that holds one key, which has been re-added with rate limiting
    three times since its last [Forget]. *)
Definition queueRetried (key : string) : WorkQueue :=
  {| queue := [key]; dirty := {[key]}; processing := ∅;
     failures := {[key := 3]}; waiting := []; shuttingDown := false |}.

(** A failed turn on the retried key, the elapse of its delay, and a turn
    that succeeds. *)
Definition queueAfterFailure : WorkQueue :=
  queueOf (processNextWorkItem envExportFails (queueRetried "root|east")).

Definition queueAtRetry : WorkQueue := wqDelayElapsed queueAfterFailure.

Definition queueAfterSuccess : WorkQueue :=
  queueOf (processNextWorkItem (envResolves [targetEast]) queueAtRetry).

(** ** The other event handlers of the controller *)

(** Modelled from the spec: the import object; the controller reads its
    cluster annotation, its name, its generation and its location. *)
Record APIResourceImport := mkAPIResourceImport {
  imMeta : ObjectMeta;
  Generation : Z;
  Location : string
}.

(** What the APIResourceImport informer hands over as [interface{}]: an
    import, or anything else. *)
Inductive ImportEventObject :=
| ImportObj (apiImport : APIResourceImport)
| NotAnImport (obj : Object).

(** The collaborators that only the schema and import handlers use. *)
Record HandlerEnv := mkHandlerEnv {
  (* kcp-dev/apimachinery, pkg/cache *)
  DeletionHandlingMetaClusterNamespaceKeyFunc : Object -> Err + string;
  ToClusterAwareKey : string -> string -> string -> string;
  (* [apiExportsIndexer.ByIndex] *)
  apiExportsByIndex : string -> string -> Err + list Object
}.

Definition enqueueAPIResourceImport (E : Env) (H : HandlerEnv) (obj : ImportEventObject)
    : M unit :=
  match obj with
  | NotAnImport other =>
      emit (HandleError
              (ErrText ("obj is supposed to be a APIResourceImport, but is " ++ typeOf other)))
  | ImportObj apiImport =>
      let lcluster := logicalclusterFrom E (imMeta apiImport) in
      let key := ToClusterAwareKey H lcluster "" (Location apiImport) in
      emit (Klog InfoV2 "Queueing SyncTarget %q because of APIResourceImport %s"
                 [AStr key; AStr (Name (imMeta apiImport))]) ;;
      queueAdd key
  end.

(** The three handlers registered on the APIResourceImport informer. *)
Definition apiResourceImportAddFunc (E : Env) (H : HandlerEnv) (obj : ImportEventObject)
    : M unit :=
  enqueueAPIResourceImport E H obj.

Definition apiResourceImportUpdateFunc (E : Env) (H : HandlerEnv)
    (old obj : APIResourceImport) : M unit :=
  let oldImport := old in
  let newImport := obj in
  if negb (bool_decide (Generation oldImport = Generation newImport))
  then enqueueAPIResourceImport E H (ImportObj obj)
  else ret tt.

Definition apiResourceImportDeleteFunc (E : Env) (H : HandlerEnv) (obj : ImportEventObject)
    : M unit := ret tt.

Definition enqueueAPIResourceSchema (E : Env) (H : HandlerEnv) (obj : Object) : M unit :=
  match DeletionHandlingMetaClusterNamespaceKeyFunc H obj with
  | inl err => emit (HandleError err)
  | inr key =>
      match apiExportsByIndex H indexAPIExportsByAPIResourceSchema key with
      | inl err => emit (HandleError err)
      | inr apiExports =>
          forEach apiExports (fun obj =>
            enqueueAPIExport E obj (" because of APIResourceSchema " ++ key))
      end
  end.

(** The three handlers registered on the APIResourceSchema informer. *)
Definition apiResourceSchemaAddFunc (E : Env) (H : HandlerEnv) (obj : Object) : M unit :=
  enqueueAPIResourceSchema E H obj.
Definition apiResourceSchemaUpdateFunc (E : Env) (H : HandlerEnv) (old obj : Object)
    : M unit :=
  enqueueAPIResourceSchema E H obj.
Definition apiResourceSchemaDeleteFunc (E : Env) (H : HandlerEnv) (obj : Object) : M unit :=
  enqueueAPIResourceSchema E H obj.

(** The keys handed to [queue.Add] in a trace, in order. *)
Definition addedKeys (t : list Event) : list string :=
  flat_map (fun e => match e with QueueAdd key => [key] | _ => [] end) t.




(** What the loop of [enqueueAPIExport] does for one key of the index: the
    key that reaches [queue.Add], if any, is the one of the resolved object. *)
Definition resolvedKey (E : Env) (key : string) : option string :=
  match syncTargetGetByKey E key with
  | inl _ => None
  | inr (syncTarget, _) =>
      match MetaClusterNamespaceKeyFunc E syncTarget with
      | inl _ => None
      | inr k => Some k
      end
  end.

(** A concrete key function for the import handler: "cluster|name", with the
    cluster and namespace parts left out when empty. *)
Definition refToClusterAwareKey (cluster namespace name : string) : string :=
  ((if decide (cluster = "") then "" else cluster ++ "|")
   ++ (if decide (namespace = "") then "" else namespace ++ "/")
   ++ name)%string.

Definition refHandlerEnv (byIndex : string -> string -> Err + list Object) : HandlerEnv :=
  {| DeletionHandlingMetaClusterNamespaceKeyFunc := fun obj =>
       match obj with
       | ObjDeletedFinalStateUnknown key _ => inr key
       | _ => refKeyFunc obj
       end;
     ToClusterAwareKey := refToClusterAwareKey;
     apiExportsByIndex := byIndex |}.


(** An index that still lists a SyncTarget that left the store, and lists
    the east target under both forms of the export. *)
Definition staleIndex : list (string * string) :=
  [ ("root:today-cowboys", "root|east");
    ("root:today-cowboys", "root|gone");
    ("root:org:today-cowboys", "other|west");
    ("root:org:today-cowboys", "root|east") ].

Definition envStaleIndex : Env :=
  refEnv [targetEast; targetWest] staleIndex
    (fun st => (st, None)) (fun st => (st, None)) sampleMarshal None.

(** The by-export index is not registered: every lookup fails. *)
Definition envNoIndex : Env :=
  {| MetaClusterNamespaceKeyFunc := refKeyFunc;
     SplitMetaClusterNamespaceKey := refSplitKey;
     logicalclusterFrom := refClusterOf;
     pathJoin := refPathJoin;
     jsonMarshal := sampleMarshal;
     CreateMergePatch := fun old new => inr ("patch(" ++ old ++ "->" ++ new ++ ")")%string;
     syncTargetListerGet := refGet [targetEast];
     syncTargetIndexKeys := fun indexName _ =>
       inl (ErrText ("Index with name " ++ indexName ++ " does not exist"));
     syncTargetGetByKey := refGetByKey [targetEast];
     exportReconcile := fun st => (st, None);
     apiCompatibleReconcile := fun st => (st, None);
     clientPatch := fun _ _ _ _ _ => None |}.

(** The by-schema index lists the cowboys export, an object that is not an
    APIExport, and the export again as a tombstone. *)
Definition handlersSample : HandlerEnv :=
  refHandlerEnv (fun _ _ =>
    inr [ ObjAPIExport exportCowboys;
          ObjSyncTarget targetEast;
          ObjDeletedFinalStateUnknown "root|today-cowboys" (ObjAPIExport exportCowboys) ]).

(** ** The test server's shard: reading the failed checks of /readyz *)

(** Go strings are byte strings; [s[:n]] and [s[n:]]. *)
Fixpoint strTake (n : nat) (s : string) : string :=
  match n, s with
  | S n', String c s' => String c (strTake n' s')
  | _, _ => EmptyString
  end.

Fixpoint strDrop (n : nat) (s : string) : string :=
  match n, s with
  | S n', String _ s' => strDrop n' s'
  | _, _ => s
  end.

(** [strings.HasPrefix] and [strings.HasSuffix]. *)
Definition HasPrefix (s prefix : string) : bool :=
  (String.length prefix <=? String.length s)%nat
  && String.eqb (strTake (String.length prefix) s) prefix.

Definition HasSuffix (s suffix : string) : bool :=
  (String.length suffix <=? String.length s)%nat
  && String.eqb (strDrop (String.length s - String.length suffix) s) suffix.

(** [strings.TrimPrefix] and [strings.TrimSuffix]. *)
Definition TrimPrefix (s prefix : string) : string :=
  if HasPrefix s prefix then strDrop (String.length prefix) s else s.

Definition TrimSuffix (s suffix : string) : string :=
  if HasSuffix s suffix then strTake (String.length s - String.length suffix) s else s.

(** [strings.Index]: the first position of [substr] in [s], [None] for -1. *)
Fixpoint Index (s substr : string) : option nat :=
  if HasPrefix s substr then Some 0
  else match s with
       | EmptyString => None
       | String _ s' => S <$> Index s' substr
       end.

(** The loop of [strings.Split] for a separator that is not empty: cut at
    the first separator and go on with what follows it.  Every round takes
    at least one byte off, so [fuel] as large as the string is enough. *)
Fixpoint splitLoop (fuel : nat) (s sep : string) : list string :=
  match Index s sep with
  | None => [s]
  | Some m =>
      match fuel with
      | O => [s]
      | S fuel' => strTake m s :: splitLoop fuel' (strDrop (m + String.length sep) s) sep
      end
  end.

Definition Split (s sep : string) : list string := splitLoop (String.length s) s sep.

(** The pieces of the messages of [unreadyComponentsFromError]; the double
    quote is character 34. *)
Definition serverErrorPrefix : string :=
  ("an error on the server (" ++ String "034"%char EmptyString)%string.

Definition serverErrorSuffix : string :=
  String "034"%char ") has prevented the request from succeeding".

Definition reasonWithheld : string := " failed: reason withheld".

Definition failedMark : string := "[-]".

(** The separator of the lines: backslash and n, as the raw string of the
    source has it. *)
Definition lineSeparator : string := "\n".

(** The name a line stands for. *)
Definition componentName (line : string) : string :=
  TrimPrefix (TrimSuffix line reasonWithheld) failedMark.

(** [unreadyComponentsFromError], on the text of the error ([err.Error()]). *)
Definition unreadyComponentsFromError (errText : string) : gset string :=
  let innerErr := TrimPrefix (TrimSuffix errText serverErrorSuffix) serverErrorPrefix in
  let unreadyComponents : gset string := ∅ in
  foldl (fun unreadyComponents line =>
           let name := componentName line in
           if decide (name <> line) then setInsert unreadyComponents [name]
           else unreadyComponents)
        unreadyComponents (Split innerErr lineSeparator).

(** [strings.Join]. *)
Fixpoint Join (parts : list string) (sep : string) : string :=
  match parts with
  | [] => EmptyString
  | [part] => part
  | part :: rest => (part ++ sep ++ Join rest sep)%string
  end.

(** No byte of the string is a backslash. *)
Fixpoint noBackslash (s : string) : bool :=
  match s with
  | EmptyString => true
  | String c s' => negb (Ascii.eqb c "\"%char) && noBackslash s'
  end.

(** The text of the error that the client builds around the body of a
    failed /readyz answer. *)
Definition serverError (body : string) : string :=
  (serverErrorPrefix ++ body ++ serverErrorSuffix)%string.

(** One line of a /readyz answer: a check that passed, or one that failed. *)
Definition readyzLine (check : bool * string) : string :=
  if check.1 then ("[+]" ++ check.2 ++ " ok")%string
  else (failedMark ++ check.2 ++ reasonWithheld)%string.

(** The names of the checks that failed. *)
Definition failedChecks (checks : list (bool * string)) : list string :=
  List.map snd (List.filter (fun check => negb check.1) checks).

(** The calls of the event router: the error sink, the logger, [queue.Add]. *)
Definition isRouterCall (e : Event) : bool :=
  match e with
  | HandleError _ | Klog _ _ _ | QueueAdd _ => true
  | _ => false
  end.

(** A computation that makes only calls of the event router and leaves the
    queue it found with the keys it added, added in order. *)
Definition routed (m : M unit) : Prop :=
  forall q,
    Forall (fun e => isRouterCall e = true) (traceOf (m q))
    /\ queueOf (m q) = foldl (fun q key => wqAdd key q) q (addedKeys (traceOf (m q))).

(** * Properties *)

(** ** What a pass of [process] does on a fetched object *)

Section ProcessFetched.
Context (E : Env) (key : string) (syncTarget : SyncTarget).
Hypothesis Hfetched : fetched E key = Some syncTarget.

Ltac open_process :=
  unfold fetched in Hfetched; unfold process;
  destruct (SplitMetaClusterNamespaceKey E key) as [?|[[cluster ns] name]];
    [discriminate|];
  destruct (syncTargetListerGet E cluster name) as [?|st0]; [discriminate|];
  injection Hfetched as ->;
  unfold bind, reconcile, emit, ret, patchSyncTarget.

(** With an error collected, the pass stops after the chain. *)
Lemma process_with_errors (q : WorkQueue) :
  collectedErrs E syncTarget <> [] ->
  process E key q = (NewAggregate (collectedErrs E syncTarget), q, chainCalls E key syncTarget).
Proof.
  intros Herrs. open_process.
  unfold collectedErrs, chainCalls, afterAPICompatible, afterExport in *.
  destruct (exportReconcile E (DeepCopy syncTarget)) as [st1 e1]; simpl in *.
  destruct (apiCompatibleReconcile E st1) as [st2 e2]; simpl in *.
  destruct e1 as [e1|], e2 as [e2|]; simpl in *; try reflexivity.
  congruence.
Qed.

(** Without errors and with an unchanged status list, the pass ends there. *)
Lemma process_unchanged (q : WorkQueue) :
  collectedErrs E syncTarget = [] ->
  reconciledResources E syncTarget = SyncedResources (Status syncTarget) ->
  process E key q = (None, q, chainCalls E key syncTarget).
Proof.
  intros Herrs Hsame. open_process.
  unfold collectedErrs, reconciledResources, chainCalls, afterAPICompatible, afterExport in *.
  destruct (exportReconcile E (DeepCopy syncTarget)) as [st1 e1]; simpl in *.
  destruct (apiCompatibleReconcile E st1) as [st2 e2]; simpl in *.
  destruct e1 as [e1|], e2 as [e2|]; simpl in *; try discriminate.
  rewrite bool_decide_eq_true_2 by congruence. reflexivity.
Qed.

(** Without errors and with a changed status list, the persister runs. *)
Lemma process_changed (q : WorkQueue) :
  collectedErrs E syncTarget = [] ->
  reconciledResources E syncTarget <> SyncedResources (Status syncTarget) ->
  process E key q =
    match jsonMarshal E (oldDocument syncTarget) with
    | inl err =>
        (Some (ErrWrapf "failed to Marshal old data for placement %s: %w" key err),
         q, chainCalls E key syncTarget)
    | inr oldData =>
    match jsonMarshal E (newDocument syncTarget (afterAPICompatible E syncTarget).1) with
    | inl err =>
        (Some (ErrWrapf "failed to Marshal new data for LocationDomain %s: %w" key err),
         q, chainCalls E key syncTarget)
    | inr newData =>
    match CreateMergePatch E oldData newData with
    | inl err =>
        (Some err, q,
         chainCalls E key syncTarget ++
         [Klog Error "Failed to create merge patch for syncTarget %q because: %v"
               [AStr key; AErr err]])
    | inr patchBytes =>
        let current := (afterAPICompatible E syncTarget).1 in
        let cluster := logicalclusterFrom E (stMeta current) in
        let answer := clientPatch E cluster (Name (stMeta current)) MergePatchType
                        patchBytes ["status"] in
        (answer, q,
         chainCalls E key syncTarget ++
         [Klog InfoV2 "Patching synctarget %s|%s with patch %s"
               [AStr cluster; AStr (Name (stMeta current)); AStr patchBytes];
          statusPatch E syncTarget patchBytes] ++
         match answer with
         | Some err => [Klog Error "failed to patch sync target status: %v" [AErr err]]
         | None => []
         end)
    end end end.
Proof.
  intros Herrs Hdiff. open_process.
  unfold collectedErrs, reconciledResources, chainCalls, statusPatch,
    afterAPICompatible, afterExport in *.
  destruct (exportReconcile E (DeepCopy syncTarget)) as [st1 e1]; simpl in *.
  destruct (apiCompatibleReconcile E st1) as [st2 e2]; simpl in *.
  destruct e1 as [e1|], e2 as [e2|]; simpl in *; try discriminate.
  rewrite bool_decide_eq_false_2 by congruence.
  destruct (jsonMarshal E (oldDocument syncTarget)) as [?|oldData]; [reflexivity|].
  destruct (jsonMarshal E (newDocument syncTarget st2)) as [?|newData]; [reflexivity|].
  destruct (CreateMergePatch E oldData newData) as [?|patchBytes]; [reflexivity|].
  destruct (clientPatch E _ _ _ _ _); reflexivity.
Qed.
End ProcessFetched.

(** The two early exits of [process]. *)
Lemma process_malformed_key (E : Env) (key : string) (q : WorkQueue) (err : Err) :
  SplitMetaClusterNamespaceKey E key = inl err ->
  process E key q = (None, q, [HandleError err]).
Proof. intros H. unfold process. rewrite H. reflexivity. Qed.

Lemma process_fetch_failed (E : Env) (key : string) (q : WorkQueue)
    (cluster ns name : string) (err : Err) :
  SplitMetaClusterNamespaceKey E key = inr (cluster, ns, name) ->
  syncTargetListerGet E cluster name = inl err ->
  process E key q =
    (None, q,
     [Klog Error "Failed to get syncTarget with key %q because: %v" [AStr key; AErr err]]).
Proof. intros Hs Hg. unfold process. rewrite Hs, Hg. reflexivity. Qed.

Lemma fetched_None_cases (E : Env) (key : string) :
  fetched E key = None ->
  (exists err, SplitMetaClusterNamespaceKey E key = inl err)
  \/ (exists cluster ns name err,
        SplitMetaClusterNamespaceKey E key = inr (cluster, ns, name)
        /\ syncTargetListerGet E cluster name = inl err).
Proof.
  unfold fetched. intros H.
  destruct (SplitMetaClusterNamespaceKey E key) as [e|[[c ns] n]] eqn:Hs; [eauto|].
  destruct (syncTargetListerGet E c n) as [e|st] eqn:Hg; [|discriminate].
  right. exists c, ns, n, e. auto.
Qed.

(** [process] never touches the work queue: neither its state nor its calls. *)
Lemma process_frame (E : Env) (key : string) (q : WorkQueue) :
  process E key q = (resultOf (process E key emptyQueue), q, traceOf (process E key emptyQueue))
  /\ Forall (fun e => isQueueEvent e = false) (traceOf (process E key q)).
Proof.
  destruct (fetched E key) as [st|] eqn:Hf.
  - destruct (decide (collectedErrs E st = [])) as [Hnil|Herr].
    + destruct (decide (reconciledResources E st = SyncedResources (Status st))) as [Hs|Hd].
      * rewrite !(process_unchanged E key st Hf _ Hnil Hs). split; [reflexivity|].
        unfold traceOf, chainCalls; simpl. repeat constructor.
      * rewrite !(process_changed E key st Hf _ Hnil Hd).
        destruct (jsonMarshal E (oldDocument st)).
        { split; [reflexivity|]. unfold traceOf, chainCalls; simpl. repeat constructor. }
        destruct (jsonMarshal E (newDocument st _)).
        { split; [reflexivity|]. unfold traceOf, chainCalls; simpl. repeat constructor. }
        destruct (CreateMergePatch E _ _).
        { split; [reflexivity|]. unfold traceOf, chainCalls; simpl. repeat constructor. }
        split; [reflexivity|]. unfold traceOf, chainCalls, statusPatch; simpl.
        destruct (clientPatch E _ _ _ _ _); repeat constructor.
    + rewrite !(process_with_errors E key st Hf _ Herr). split; [reflexivity|].
      unfold traceOf, chainCalls; simpl. repeat constructor.
  - destruct (fetched_None_cases E key Hf) as [[e Hs]|(c & ns & n & e & Hs & Hg)].
    + rewrite !(process_malformed_key E key _ e Hs). split; [reflexivity|].
      repeat constructor.
    + rewrite !(process_fetch_failed E key _ c ns n e Hs Hg). split; [reflexivity|].
      repeat constructor.
Qed.

(** ** The reconciler chain *)

(** C5: in every pass on a fetched object both steps are called, the export
    step first and the compatibility step on its output, whether or not the
    first step returns an error; the errors of the steps are joined, in
    order, into one aggregate that the pass returns. *)
Theorem process_runs_both_steps (E : Env) (key : string) (q : WorkQueue)
    (syncTarget : SyncTarget) :
  fetched E key = Some syncTarget ->
  reconcileCalls (traceOf (process E key q)) =
    [ Reconcile ExportStep (DeepCopy syncTarget);
      Reconcile APICompatibleStep (exportReconcile E (DeepCopy syncTarget)).1 ]
  /\ (forall e1, (afterExport E syncTarget).2 = Some e1 ->
        resultOf (process E key q) =
          Some (ErrAggregate (e1 :: match (afterAPICompatible E syncTarget).2 with
                                    | Some e2 => [e2]
                                    | None => []
                                    end)))
  /\ (forall e2, (afterExport E syncTarget).2 = None ->
        (afterAPICompatible E syncTarget).2 = Some e2 ->
        resultOf (process E key q) = Some (ErrAggregate [e2])).
Proof.
  intros Hf. split; [|split].
  - destruct (decide (collectedErrs E syncTarget = [])) as [Hnil|Herr].
    + destruct (decide (reconciledResources E syncTarget
                        = SyncedResources (Status syncTarget))) as [Hs|Hd].
      * rewrite (process_unchanged E key syncTarget Hf _ Hnil Hs). reflexivity.
      * rewrite (process_changed E key syncTarget Hf _ Hnil Hd).
        destruct (jsonMarshal E (oldDocument syncTarget)); [reflexivity|].
        destruct (jsonMarshal E (newDocument syncTarget _)); [reflexivity|].
        destruct (CreateMergePatch E _ _); [reflexivity|].
        unfold traceOf, statusPatch; simpl.
        destruct (clientPatch E _ _ _ _ _); reflexivity.
    + rewrite (process_with_errors E key syncTarget Hf _ Herr). reflexivity.
  - intros e1 H1.
    assert (Herr : collectedErrs E syncTarget <> []).
    { unfold collectedErrs. rewrite H1.
      destruct ((afterAPICompatible E syncTarget).2); discriminate. }
    rewrite (process_with_errors E key syncTarget Hf _ Herr).
    unfold resultOf, collectedErrs; simpl. rewrite H1.
    destruct ((afterAPICompatible E syncTarget).2); reflexivity.
  - intros e2 H1 H2.
    assert (Herr : collectedErrs E syncTarget <> []).
    { unfold collectedErrs. rewrite H1, H2. discriminate. }
    rewrite (process_with_errors E key syncTarget Hf _ Herr).
    unfold resultOf, collectedErrs; simpl. rewrite H1, H2. reflexivity.
Qed.

Lemma process_runs_both_steps_witness :
  fetched envExportFails "root|east" = Some targetEast
  /\ resultOf (process envExportFails "root|east" emptyQueue)
     = Some (ErrAggregate [ErrText "export root:missing is broken"])
  /\ reconcileCalls (traceOf (process envExportFails "root|east" emptyQueue))
     = [ Reconcile ExportStep targetEast;
         Reconcile APICompatibleStep (withResources [cowboys] targetEast) ].
Proof.
  pose proof (process_runs_both_steps envExportFails "root|east" emptyQueue targetEast
                eq_refl) as (Hcalls & Hfirst & _).
  split; [reflexivity|]. split.
  - exact (Hfirst (ErrText "export root:missing is broken") eq_refl).
  - exact Hcalls.
Defined.

(** C1, as the code has it: when a step returns an error, the pass returns
    the aggregate of the collected errors right after the chain; the
    persister is not reached, so no marshalling and no patch call happens and
    the mutated working copy is dropped. *)
Theorem process_errors_skip_persister (E : Env) (key : string) (q : WorkQueue)
    (syncTarget : SyncTarget) :
  fetched E key = Some syncTarget ->
  collectedErrs E syncTarget <> [] ->
  resultOf (process E key q) = Some (ErrAggregate (collectedErrs E syncTarget))
  /\ traceOf (process E key q) = chainCalls E key syncTarget
  /\ patchCalls (traceOf (process E key q)) = [].
Proof.
  intros Hf Herr. rewrite (process_with_errors E key syncTarget Hf _ Herr).
  split; [|split]; try reflexivity.
  unfold resultOf; simpl. destruct (collectedErrs E syncTarget); [congruence|reflexivity].
Qed.

Lemma process_errors_skip_persister_witness :
  resultOf (process envExportFails "root|east" emptyQueue)
    = Some (ErrAggregate [ErrText "export root:missing is broken"])
  /\ traceOf (process envExportFails "root|east" emptyQueue)
    = chainCalls envExportFails "root|east" targetEast
  /\ patchCalls (traceOf (process envExportFails "root|east" emptyQueue)) = [].
Proof.
  apply (process_errors_skip_persister envExportFails "root|east" emptyQueue targetEast).
  - reflexivity.
  - vm_compute. discriminate.
Defined.

(** C1, as the specification words it, fails: the export step of
    [envExportFails] returns an error and leaves a status list that differs
    from the observed one, and no patch is issued. *)
Lemma partial_status_is_not_persisted :
  ~ (forall syncTarget,
       fetched envExportFails "root|east" = Some syncTarget ->
       collectedErrs envExportFails syncTarget <> [] ->
       reconciledResources envExportFails syncTarget
         <> SyncedResources (Status syncTarget) ->
       patchCalls (traceOf (process envExportFails "root|east" emptyQueue)) <> []).
Proof.
  intros H. apply (H targetEast).
  - reflexivity.
  - vm_compute. discriminate.
  - vm_compute. discriminate.
  - reflexivity.
Qed.

(** ** The persister *)

(** C3: when the chain leaves the status list equal to the observed one, the
    pass makes no patch call; hence a second pass on the same key, run when
    the store shows the status the first pass computed and the chain still
    computes that status, makes no patch call. *)
Theorem process_unchanged_status_no_patch :
  (forall (E : Env) (key : string) (q : WorkQueue),
     (forall syncTarget, fetched E key = Some syncTarget ->
        reconciledResources E syncTarget = SyncedResources (Status syncTarget)) ->
     patchCalls (traceOf (process E key q)) = [])
  /\ (forall (E1 E2 : Env) (key : string) (q : WorkQueue) (first second : SyncTarget),
        fetched E1 key = Some first ->
        fetched E2 key = Some second ->
        SyncedResources (Status second) = reconciledResources E1 first ->
        reconciledResources E2 second = reconciledResources E1 first ->
        patchCalls (traceOf (process E2 key (queueOf (process E1 key q)))) = []).
Proof.
  assert (Hone : forall (E : Env) (key : string) (q : WorkQueue),
     (forall syncTarget, fetched E key = Some syncTarget ->
        reconciledResources E syncTarget = SyncedResources (Status syncTarget)) ->
     patchCalls (traceOf (process E key q)) = []).
  { intros E key q Hsame.
    destruct (fetched E key) as [st|] eqn:Hf.
    - specialize (Hsame st eq_refl).
      destruct (decide (collectedErrs E st = [])) as [Hnil|Herr].
      + rewrite (process_unchanged E key st Hf _ Hnil Hsame). reflexivity.
      + rewrite (process_with_errors E key st Hf _ Herr). reflexivity.
    - destruct (fetched_None_cases E key Hf) as [[e Hs]|(c & ns & n & e & Hs & Hg)].
      + rewrite (process_malformed_key E key _ e Hs). reflexivity.
      + rewrite (process_fetch_failed E key _ c ns n e Hs Hg). reflexivity. }
  split; [exact Hone|].
  intros E1 E2 key q first second Hf1 Hf2 Hstored Hstable.
  apply Hone. intros st Hst. rewrite Hf2 in Hst. injection Hst as <-.
  congruence.
Qed.

Lemma process_unchanged_status_no_patch_witness :
  patchCalls (traceOf (process (envResolves [targetEast]) "root|east" emptyQueue))
    = [ Patch "root" "east" MergePatchType
          "patch({uid:,rv:,synced:}->{uid:uid-1,rv:7,synced:cowboys})" ["status"] ]
  /\ patchCalls
       (traceOf (process (envResolves [withResources [cowboys] targetEast]) "root|east"
                   (queueOf (process (envResolves [targetEast]) "root|east" emptyQueue))))
     = []
  /\ patchCalls
       (traceOf (process (envResolves [withResources [cowboys] targetEast]) "root|east"
                   emptyQueue))
     = [].
Proof.
  split; [reflexivity|]. split.
  - apply (proj2 process_unchanged_status_no_patch
             (envResolves [targetEast]) (envResolves [withResources [cowboys] targetEast])
             "root|east" emptyQueue targetEast (withResources [cowboys] targetEast));
      reflexivity.
  - apply (proj1 process_unchanged_status_no_patch
             (envResolves [withResources [cowboys] targetEast]) "root|east" emptyQueue).
    intros st Hst. injection Hst as <-. reflexivity.
Defined.

(** C6, as the code has it: when no step returned an error and the
    reconciled status list differs from the observed one, the pass sends
    exactly one update: the merge patch between the "before" document (only
    the observed status list) and the "after" document (the new status list
    with UID and resource version of the observed object), as a merge patch
    on the "status" sub-resource of the SyncTarget, and returns the answer of
    that call; a failure to marshal either document or to create the patch
    is returned as the error of the pass, and then nothing is sent. *)
Theorem process_patches_changed_status (E : Env) (key : string) (q : WorkQueue)
    (syncTarget : SyncTarget) :
  fetched E key = Some syncTarget ->
  collectedErrs E syncTarget = [] ->
  reconciledResources E syncTarget <> SyncedResources (Status syncTarget) ->
  let current := (afterAPICompatible E syncTarget).1 in
  let before := oldDocument syncTarget in
  let after := newDocument syncTarget current in
  (before = {| stMeta := emptyMeta; Spec := {| SupportedAPIExports := [] |};
               Status := {| SyncedResources := SyncedResources (Status syncTarget) |} |}
   /\ SyncedResources (Status after) = SyncedResources (Status current)
   /\ UID (stMeta after) = UID (stMeta syncTarget)
   /\ ResourceVersion (stMeta after) = ResourceVersion (stMeta syncTarget))
  /\ (forall oldData newData patchBytes,
        jsonMarshal E before = inr oldData ->
        jsonMarshal E after = inr newData ->
        CreateMergePatch E oldData newData = inr patchBytes ->
        patchCalls (traceOf (process E key q)) =
          [ Patch (logicalclusterFrom E (stMeta current)) (Name (stMeta current))
                  MergePatchType patchBytes ["status"] ]
        /\ resultOf (process E key q) =
             clientPatch E (logicalclusterFrom E (stMeta current)) (Name (stMeta current))
               MergePatchType patchBytes ["status"])
  /\ (forall err, jsonMarshal E before = inl err ->
        patchCalls (traceOf (process E key q)) = []
        /\ resultOf (process E key q) =
             Some (ErrWrapf "failed to Marshal old data for placement %s: %w" key err))
  /\ (forall oldData err,
        jsonMarshal E before = inr oldData ->
        jsonMarshal E after = inl err ->
        patchCalls (traceOf (process E key q)) = []
        /\ resultOf (process E key q) =
             Some (ErrWrapf "failed to Marshal new data for LocationDomain %s: %w" key err))
  /\ (forall oldData newData err,
        jsonMarshal E before = inr oldData ->
        jsonMarshal E after = inr newData ->
        CreateMergePatch E oldData newData = inl err ->
        patchCalls (traceOf (process E key q)) = []
        /\ resultOf (process E key q) = Some err).
Proof.
  intros Hf Hnil Hd current before after.
  rewrite (process_changed E key syncTarget Hf _ Hnil Hd).
  fold current. fold before. fold after.
  split; [repeat split|].
  split; [|split; [|split]].
  - intros o n p Ho Hn Hp. rewrite Ho, Hn, Hp. unfold statusPatch. fold current.
    cbv zeta. split; [|reflexivity].
    unfold traceOf; simpl.
    destruct (clientPatch E _ _ _ _ _); reflexivity.
  - intros err Ho. rewrite Ho. split; reflexivity.
  - intros o err Ho Hn. rewrite Ho, Hn. split; reflexivity.
  - intros o n err Ho Hn Hp. rewrite Ho, Hn, Hp. split; reflexivity.
Qed.

Lemma process_patches_changed_status_witness :
  patchCalls (traceOf (process (envResolves [targetEast]) "root|east" emptyQueue))
    = [ Patch "root" "east" MergePatchType
          "patch({uid:,rv:,synced:}->{uid:uid-1,rv:7,synced:cowboys})" ["status"] ]
  /\ resultOf (process (envResolves [targetEast]) "root|east" emptyQueue) = None.
Proof.
  assert (Hd : reconciledResources (envResolves [targetEast]) targetEast
               <> SyncedResources (Status targetEast)) by (vm_compute; discriminate).
  pose proof (process_patches_changed_status (envResolves [targetEast]) "root|east"
                emptyQueue targetEast eq_refl eq_refl Hd) as (_ & Hsent & _).
  exact (Hsent "{uid:,rv:,synced:}" "{uid:uid-1,rv:7,synced:cowboys}"
           "patch({uid:,rv:,synced:}->{uid:uid-1,rv:7,synced:cowboys})"
           eq_refl eq_refl eq_refl).
Defined.

(** C6, as the specification words it, fails: in [envExportFails] the
    reconciled status list differs from the observed one and both documents
    marshal into a merge patch, yet no update is sent, because the export
    step returned an error. *)
Lemma changed_status_is_not_always_patched :
  ~ (forall syncTarget patchBytes,
       fetched envExportFails "root|east" = Some syncTarget ->
       reconciledResources envExportFails syncTarget
         <> SyncedResources (Status syncTarget) ->
       mergePatchOf envExportFails syncTarget = inr patchBytes ->
       patchCalls (traceOf (process envExportFails "root|east" emptyQueue))
         = [statusPatch envExportFails syncTarget patchBytes]).
Proof.
  intros H.
  specialize (H targetEast "patch({uid:,rv:,synced:}->{uid:uid-1,rv:7,synced:cowboys})"
                eq_refl).
  assert (Hd : reconciledResources envExportFails targetEast
               <> SyncedResources (Status targetEast)) by (vm_compute; discriminate).
  specialize (H Hd eq_refl). vm_compute in H. discriminate.
Qed.

(** ** The worker *)

(** What the worker does with the outcome of [process]. *)
Lemma processNextWorkItem_item (E : Env) (q : WorkQueue) (key : string) (rest : list string) :
  queue q = key :: rest ->
  processNextWorkItem E q =
    let q1 := (wqGet q).2 in
    match resultOf (process E key q) with
    | Some err =>
        (Some true, wqDone key (wqAddRateLimited key q1),
         QueueGet key :: traceOf (process E key q) ++
         [HandleError (ErrWrapf "failed to sync %q: %w" key err);
          QueueAddRateLimited key; QueueDone key])
    | None =>
        (Some true, wqDone key (wqForget key q1),
         QueueGet key :: traceOf (process E key q) ++ [QueueForget key; QueueDone key])
    end.
Proof.
  intros Hq. unfold processNextWorkItem, bind, queueGet, wqGet. rewrite Hq. simpl.
  destruct (process_frame E key q) as [Hq0 _]. rewrite Hq0.
  match goal with |- context [process E key ?q1] =>
    destruct (process_frame E key q1) as [Hq1 _]; rewrite Hq1 end.
  unfold resultOf, traceOf; simpl.
  destruct ((process E key emptyQueue).1.1) as [err|]; simpl;
    rewrite ?app_nil_r, <- ?app_assoc; reflexivity.
Qed.

Lemma processNextWorkItem_empty (E : Env) (q : WorkQueue) :
  queue q = [] ->
  processNextWorkItem E q = (if shuttingDown q then Some false else None, q, []).
Proof.
  intros Hq. unfold processNextWorkItem, bind, queueGet, wqGet. rewrite Hq.
  destruct (shuttingDown q); reflexivity.
Qed.

(** After [Get] the key is no longer dirty, so [Done] does not queue it again. *)
Lemma wqGet_head (q : WorkQueue) (key : string) (rest : list string) :
  queue q = key :: rest ->
  wqGet q = (GotItem key,
             {| queue := rest; dirty := dirty q ∖ {[key]};
                processing := {[key]} ∪ processing q; failures := failures q;
                waiting := waiting q; shuttingDown := shuttingDown q |}).
Proof. intros Hq. unfold wqGet. rewrite Hq. reflexivity. Qed.

Lemma inFlightAfter_app (cur : option string) (t1 t2 : list Event) :
  inFlightAfter cur (t1 ++ t2) =
    match inFlightAfter cur t1 with
    | Some c => inFlightAfter c t2
    | None => None
    end.
Proof.
  revert cur. induction t1 as [|e t1 IH]; intros cur; simpl; [reflexivity|].
  destruct e; try apply IH.
  - destruct cur; [reflexivity|apply IH].
  - destruct cur as [k|]; [|reflexivity]. case_decide; [apply IH|reflexivity].
Qed.

Lemma inFlightAfter_no_queue_events (cur : option string) (t : list Event) :
  Forall (fun e => isQueueEvent e = false) t -> inFlightAfter cur t = Some cur.
Proof.
  induction 1 as [|e t He _ IH]; simpl; [reflexivity|].
  destruct e; simpl in He; try discriminate; exact IH.
Qed.

Lemma doneCount_no_queue_events (key : string) (t : list Event) :
  Forall (fun e => isQueueEvent e = false) t -> doneCount key t = 0.
Proof.
  unfold doneCount. induction 1 as [|e t He _ IH]; [reflexivity|].
  destruct e; simpl in He; try discriminate; exact IH.
Qed.

Lemma doneCount_cons (key : string) (e : Event) (t : list Event) :
  doneCount key (e :: t) = (if isDoneOf key e then 1 else 0) + doneCount key t.
Proof.
  unfold doneCount. rewrite filter_cons. cbv beta.
  destruct (isDoneOf key e); destruct (decide _); try congruence; reflexivity.
Qed.

Lemma doneCount_app (key : string) (t1 t2 : list Event) :
  doneCount key (t1 ++ t2) = doneCount key t1 + doneCount key t2.
Proof. unfold doneCount. rewrite filter_app, length_app. reflexivity. Qed.

(** One turn of the worker keeps the in-flight discipline. *)
Lemma processNextWorkItem_in_flight (E : Env) (q : WorkQueue) :
  inFlightAfter None (traceOf (processNextWorkItem E q)) = Some None.
Proof.
  destruct (queue q) as [|key rest] eqn:Hq.
  - rewrite (processNextWorkItem_empty E q Hq). reflexivity.
  - rewrite (processNextWorkItem_item E q key rest Hq). cbv zeta.
    destruct (process_frame E key q) as [_ Hnq].
    destruct (resultOf (process E key q)); unfold traceOf at 1; simpl;
      rewrite inFlightAfter_app, (inFlightAfter_no_queue_events _ _ Hnq); simpl;
      rewrite decide_True by reflexivity; reflexivity.
Qed.

Lemma NumRequeues_forget (key : string) (q : WorkQueue) :
  NumRequeues (wqDone key (wqForget key q)) key = 0.
Proof. unfold NumRequeues; simpl. rewrite lookup_delete_eq. reflexivity. Qed.

Lemma NumRequeues_addRateLimited (key : string) (q : WorkQueue) :
  NumRequeues (wqDone key (wqAddRateLimited key q)) key = S (NumRequeues q key).
Proof. unfold NumRequeues at 1; simpl. rewrite lookup_insert_eq. reflexivity. Qed.

Lemma queue_after_turn (key : string) (q : WorkQueue) (rest : list string)
    (settle : WorkQueue -> WorkQueue) :
  queue q = key :: rest ->
  (forall q', queue (settle q') = queue q' /\ dirty (settle q') = dirty q') ->
  queue (wqDone key (settle (wqGet q).2)) = rest.
Proof.
  intros Hq Hsettle. rewrite (wqGet_head q key rest Hq). simpl.
  destruct (Hsettle {| queue := rest; dirty := dirty q ∖ {[key]};
                       processing := {[key]} ∪ processing q; failures := failures q;
                       waiting := waiting q; shuttingDown := shuttingDown q |})
    as [-> ->]. simpl.
  rewrite decide_False; [reflexivity|].
  rewrite elem_of_difference, elem_of_singleton. tauto.
Qed.

(** C7: when the lister reports the SyncTarget as not found, [process] logs
    the error and returns nil without any other call; the worker then calls
    [Forget] for the key, does not re-add it, and no patch is attempted. *)
Theorem process_not_found_is_success (E : Env) (key cluster ns name : string) (err : Err) :
  SplitMetaClusterNamespaceKey E key = inr (cluster, ns, name) ->
  syncTargetListerGet E cluster name = inl err ->
  IsNotFound err = true ->
  (forall q,
     process E key q =
       (None, q,
        [Klog Error "Failed to get syncTarget with key %q because: %v"
              [AStr key; AErr err]]))
  /\ (forall q rest, queue q = key :: rest ->
        resultOf (processNextWorkItem E q) = Some true
        /\ traceOf (processNextWorkItem E q) =
             [ QueueGet key;
               Klog Error "Failed to get syncTarget with key %q because: %v"
                    [AStr key; AErr err];
               QueueForget key;
               QueueDone key ]
        /\ queue (queueOf (processNextWorkItem E q)) = rest
        /\ waiting (queueOf (processNextWorkItem E q)) = waiting q
        /\ patchCalls (traceOf (processNextWorkItem E q)) = []).
Proof.
  intros Hs Hg _. split.
  - intros q. exact (process_fetch_failed E key q cluster ns name err Hs Hg).
  - intros q rest Hq. rewrite (processNextWorkItem_item E q key rest Hq).
    rewrite (process_fetch_failed E key q cluster ns name err Hs Hg).
    unfold resultOf, traceOf, queueOf; simpl.
    repeat split.
    + apply (queue_after_turn key q rest (wqForget key) Hq). intros; split; reflexivity.
    + rewrite (wqGet_head q key rest Hq). reflexivity.
Qed.

Lemma process_not_found_is_success_witness :
  resultOf (process (envResolves [targetEast]) "root|south" emptyQueue) = None
  /\ traceOf (processNextWorkItem (envResolves [targetEast]) (wqAdd "root|south" emptyQueue))
     = [ QueueGet "root|south";
         Klog Error "Failed to get syncTarget with key %q because: %v"
              [AStr "root|south"; AErr (ErrNotFound "synctargets" "south")];
         QueueForget "root|south";
         QueueDone "root|south" ].
Proof.
  pose proof (process_not_found_is_success (envResolves [targetEast]) "root|south"
                "root" "" "south" (ErrNotFound "synctargets" "south")
                eq_refl eq_refl eq_refl) as [Hp Hw].
  split.
  - rewrite (Hp emptyQueue). reflexivity.
  - exact (proj1 (proj2 (Hw (wqAdd "root|south" emptyQueue) [] eq_refl))).
Defined.

(** C9: whatever error the lister returns for the primary object, and
    whenever the dequeued key does not split, [process] returns nil; the
    worker treats the turn as a success: it calls [Forget] for the key and
    schedules no rate-limited retry. *)
Theorem process_fetch_failure_is_success (E : Env) (key : string) :
  (exists err, SplitMetaClusterNamespaceKey E key = inl err)
  \/ (exists cluster ns name err,
        SplitMetaClusterNamespaceKey E key = inr (cluster, ns, name)
        /\ syncTargetListerGet E cluster name = inl err) ->
  (forall q, resultOf (process E key q) = None)
  /\ (forall q rest, queue q = key :: rest ->
        resultOf (processNextWorkItem E q) = Some true
        /\ In (QueueForget key) (traceOf (processNextWorkItem E q))
        /\ ~ In (QueueAddRateLimited key) (traceOf (processNextWorkItem E q))
        /\ waiting (queueOf (processNextWorkItem E q)) = waiting q
        /\ NumRequeues (queueOf (processNextWorkItem E q)) key = 0).
Proof.
  intros Hfail.
  assert (Hp : exists e, forall q, process E key q = (None, q, [e])
                                   /\ e <> QueueAddRateLimited key).
  { destruct Hfail as [[err Hs]|(c & ns & n & err & Hs & Hg)].
    - exists (HandleError err). intros q. split; [|discriminate].
      exact (process_malformed_key E key q err Hs).
    - exists (Klog Error "Failed to get syncTarget with key %q because: %v"
                   [AStr key; AErr err]).
      intros q. split; [|discriminate].
      exact (process_fetch_failed E key q c ns n err Hs Hg). }
  destruct Hp as [e He]. split.
  - intros q. rewrite (proj1 (He q)). reflexivity.
  - intros q rest Hq. rewrite (processNextWorkItem_item E q key rest Hq).
    destruct (He q) as [-> Hne].
    unfold resultOf, traceOf, queueOf; simpl. repeat split.
    + right; right; left; reflexivity.
    + intros [H|[H|[H|[H|[]]]]]; try discriminate. congruence.
    + rewrite (wqGet_head q key rest Hq). reflexivity.
    + apply NumRequeues_forget.
Qed.

Lemma process_fetch_failure_is_success_witness :
  (resultOf (process envListerDown "root|east" emptyQueue) = None
   /\ NumRequeues (queueOf (processNextWorkItem envListerDown (queueRetried "root|east")))
        "root|east" = 0)
  /\ (resultOf (process envListerDown "a|b|c" emptyQueue) = None
      /\ In (QueueForget "a|b|c")
            (traceOf (processNextWorkItem envListerDown (queueRetried "a|b|c")))).
Proof.
  split.
  - assert (H : (exists err, SplitMetaClusterNamespaceKey envListerDown "root|east" = inl err)
             \/ (exists cluster ns name err,
                   SplitMetaClusterNamespaceKey envListerDown "root|east"
                     = inr (cluster, ns, name)
                   /\ syncTargetListerGet envListerDown cluster name = inl err)).
    { right. exists "root", "", "east", (ErrText "informer cache is not synced").
      split; reflexivity. }
    destruct (process_fetch_failure_is_success envListerDown "root|east" H) as [Hp Hw].
    split; [apply Hp|].
    exact (proj2 (proj2 (proj2 (proj2 (Hw (queueRetried "root|east") [] eq_refl))))).
  - assert (H : (exists err, SplitMetaClusterNamespaceKey envListerDown "a|b|c" = inl err)
             \/ (exists cluster ns name err,
                   SplitMetaClusterNamespaceKey envListerDown "a|b|c"
                     = inr (cluster, ns, name)
                   /\ syncTargetListerGet envListerDown cluster name = inl err)).
    { left. eexists. reflexivity. }
    destruct (process_fetch_failure_is_success envListerDown "a|b|c" H) as [Hp Hw].
    split; [apply Hp|].
    exact (proj1 (proj2 (Hw (queueRetried "a|b|c") [] eq_refl))).
Defined.

(** C8: for a dequeued key, when [process] returns an error the worker
    reports it, re-adds the key with [AddRateLimited] and goes on; when
    [process] returns nil it calls [Forget].  So when a pass on a key fails
    and a later pass on it succeeds, the backoff state of the key is reset
    and its next delay is the minimum one. *)
Theorem processNextWorkItem_backoff :
  (forall E q key rest err,
     queue q = key :: rest ->
     resultOf (process E key q) = Some err ->
     resultOf (processNextWorkItem E q) = Some true
     /\ traceOf (processNextWorkItem E q) =
          QueueGet key :: traceOf (process E key q) ++
          [ HandleError (ErrWrapf "failed to sync %q: %w" key err);
            QueueAddRateLimited key; QueueDone key ]
     /\ NumRequeues (queueOf (processNextWorkItem E q)) key = S (NumRequeues q key)
     /\ waiting (queueOf (processNextWorkItem E q)) = waiting q ++ [(key, nextDelay q key)])
  /\ (forall E q key rest,
        queue q = key :: rest ->
        resultOf (process E key q) = None ->
        resultOf (processNextWorkItem E q) = Some true
        /\ traceOf (processNextWorkItem E q) =
             QueueGet key :: traceOf (process E key q) ++ [QueueForget key; QueueDone key]
        /\ NumRequeues (queueOf (processNextWorkItem E q)) key = 0
        /\ nextDelay (queueOf (processNextWorkItem E q)) key = minBackoff)
  /\ (forall E1 E2 q key rest err q2 rest2,
        queue q = key :: rest ->
        resultOf (process E1 key q) = Some err ->
        failures q2 = failures (queueOf (processNextWorkItem E1 q)) ->
        queue q2 = key :: rest2 ->
        resultOf (process E2 key q2) = None ->
        NumRequeues q2 key = S (NumRequeues q key)
        /\ In (QueueForget key) (traceOf (processNextWorkItem E2 q2))
        /\ NumRequeues (queueOf (processNextWorkItem E2 q2)) key = 0
        /\ nextDelay (queueOf (processNextWorkItem E2 q2)) key = minBackoff).
Proof.
  assert (Herr : forall E q key rest err,
     queue q = key :: rest ->
     resultOf (process E key q) = Some err ->
     resultOf (processNextWorkItem E q) = Some true
     /\ traceOf (processNextWorkItem E q) =
          QueueGet key :: traceOf (process E key q) ++
          [ HandleError (ErrWrapf "failed to sync %q: %w" key err);
            QueueAddRateLimited key; QueueDone key ]
     /\ NumRequeues (queueOf (processNextWorkItem E q)) key = S (NumRequeues q key)
     /\ waiting (queueOf (processNextWorkItem E q)) = waiting q ++ [(key, nextDelay q key)]).
  { intros E q key rest err Hq Hr.
    rewrite (processNextWorkItem_item E q key rest Hq), Hr. cbv zeta.
    unfold resultOf at 1, traceOf at 1, queueOf. cbn [fst snd].
    repeat split.
    - rewrite NumRequeues_addRateLimited, (wqGet_head q key rest Hq). reflexivity.
    - rewrite (wqGet_head q key rest Hq). reflexivity. }
  assert (Hok : forall E q key rest,
        queue q = key :: rest ->
        resultOf (process E key q) = None ->
        resultOf (processNextWorkItem E q) = Some true
        /\ traceOf (processNextWorkItem E q) =
             QueueGet key :: traceOf (process E key q) ++ [QueueForget key; QueueDone key]
        /\ NumRequeues (queueOf (processNextWorkItem E q)) key = 0
        /\ nextDelay (queueOf (processNextWorkItem E q)) key = minBackoff).
  { intros E q key rest Hq Hr.
    rewrite (processNextWorkItem_item E q key rest Hq), Hr. cbv zeta.
    unfold resultOf at 1, traceOf at 1, queueOf, nextDelay. cbn [fst snd].
    rewrite NumRequeues_forget. repeat split. }
  split; [exact Herr|]. split; [exact Hok|].
  intros E1 E2 q key rest err q2 rest2 Hq Hr1 Hfail Hq2 Hr2.
  destruct (Herr E1 q key rest err Hq Hr1) as (_ & _ & Hn & _).
  destruct (Hok E2 q2 key rest2 Hq2 Hr2) as (_ & Ht & Hz & Hd).
  split; [|split; [|split]]; try assumption.
  - unfold NumRequeues in *. rewrite Hfail. exact Hn.
  - rewrite Ht. right. apply in_or_app. right. left. reflexivity.
Qed.

Lemma processNextWorkItem_backoff_witness :
  NumRequeues (queueRetried "root|east") "root|east" = 3
  /\ waiting queueAfterFailure = [("root|east", 8)]
  /\ NumRequeues queueAtRetry "root|east" = 4
  /\ NumRequeues queueAfterSuccess "root|east" = 0
  /\ nextDelay queueAfterSuccess "root|east" = minBackoff.
Proof.
  destruct processNextWorkItem_backoff as (Herr & Hok & Hboth).
  assert (Hq : queue (queueRetried "root|east") = ["root|east"]) by reflexivity.
  assert (Hr1 : resultOf (process envExportFails "root|east" (queueRetried "root|east"))
                = Some (ErrAggregate [ErrText "export root:missing is broken"]))
    by (vm_compute; reflexivity).
  assert (Hq2 : queue queueAtRetry = ["root|east"]) by (vm_compute; reflexivity).
  assert (Hr2 : resultOf (process (envResolves [targetEast]) "root|east" queueAtRetry)
                = None) by (vm_compute; reflexivity).
  assert (Hf : failures queueAtRetry = failures queueAfterFailure)
    by (vm_compute; reflexivity).
  pose proof (Herr envExportFails (queueRetried "root|east") "root|east" [] _ Hq Hr1)
    as (_ & _ & _ & Hw).
  pose proof (Hok (envResolves [targetEast]) queueAtRetry "root|east" [] Hq2 Hr2)
    as (_ & _ & Hz & _).
  pose proof (Hboth envExportFails (envResolves [targetEast]) (queueRetried "root|east")
                "root|east" [] _ queueAtRetry [] Hq Hr1 Hf Hq2 Hr2) as (Hn & _ & _ & Hd).
  split; [vm_compute; reflexivity|]. split; [exact Hw|]. split; [exact Hn|].
  split; [exact Hz|exact Hd].
Defined.

(** C10: in a turn that dequeues a key, [Done] is called for that key exactly
    once, as the last call of the turn and whatever [process] returned, so
    the key is no longer marked as processed when the turn ends; over any
    number of turns of a worker, every [Get] is followed by the [Done] of
    its key before the next [Get]. *)
Theorem worker_done_once_per_get :
  (forall E q key rest,
     queue q = key :: rest ->
     doneCount key (traceOf (processNextWorkItem E q)) = 1
     /\ (exists body,
           traceOf (processNextWorkItem E q) = QueueGet key :: body ++ [QueueDone key]
           /\ Forall (fun e => forall k, e <> QueueGet k /\ e <> QueueDone k) body)
     /\ key ∉ processing (queueOf (processNextWorkItem E q)))
  /\ (forall E fuel q, inFlightAfter None (traceOf (startWorker E fuel q)) = Some None).
Proof.
  split.
  - intros E q key rest Hq.
    rewrite (processNextWorkItem_item E q key rest Hq). cbv zeta.
    destruct (process_frame E key q) as [_ Hnq].
    assert (Hbody : Forall (fun e => forall k, e <> QueueGet k /\ e <> QueueDone k)
                      (traceOf (process E key q))).
    { eapply Forall_impl; [exact Hnq|]. intros e He k.
      destruct e; simpl in He; try discriminate; split; discriminate. }
    destruct (resultOf (process E key q)) as [err|];
      unfold traceOf at 1 2, queueOf; cbn [fst snd].
    + split; [|split].
      * change (QueueGet key :: ?t ++ ?l) with ([QueueGet key] ++ t ++ l).
        rewrite !doneCount_app, (doneCount_no_queue_events _ _ Hnq).
        rewrite !doneCount_cons. simpl.
        rewrite bool_decide_true by reflexivity. reflexivity.
      * exists (traceOf (process E key q) ++
                [HandleError (ErrWrapf "failed to sync %q: %w" key err);
                 QueueAddRateLimited key]).
        split; [rewrite <- app_assoc; reflexivity|].
        apply Forall_app. split; [exact Hbody|].
        repeat constructor; discriminate.
      * simpl. rewrite elem_of_difference, elem_of_singleton. tauto.
    + split; [|split].
      * change (QueueGet key :: ?t ++ ?l) with ([QueueGet key] ++ t ++ l).
        rewrite !doneCount_app, (doneCount_no_queue_events _ _ Hnq).
        rewrite !doneCount_cons. simpl.
        rewrite bool_decide_true by reflexivity. reflexivity.
      * exists (traceOf (process E key q) ++ [QueueForget key]).
        split; [rewrite <- app_assoc; reflexivity|].
        apply Forall_app. split; [exact Hbody|].
        repeat constructor; discriminate.
      * simpl. rewrite elem_of_difference, elem_of_singleton. tauto.
  - intros E fuel. induction fuel as [|fuel IH]; intros q; [reflexivity|].
    simpl. unfold bind.
    pose proof (processNextWorkItem_in_flight E q) as Hturn.
    destruct (processNextWorkItem E q) as [[r q1] t1]. unfold traceOf in Hturn; simpl in Hturn.
    destruct r as [[|]|].
    + specialize (IH q1). destruct (startWorker E fuel q1) as [[w q2] t2].
      unfold traceOf in *; simpl in *.
      rewrite inFlightAfter_app, Hturn. exact IH.
    + unfold traceOf; simpl. rewrite app_nil_r. exact Hturn.
    + unfold traceOf; simpl. rewrite app_nil_r. exact Hturn.
Qed.

Lemma worker_done_once_per_get_witness :
  doneCount "root|east"
    (traceOf (processNextWorkItem envExportFails (queueRetried "root|east"))) = 1
  /\ "root|east" ∉ processing (queueOf (processNextWorkItem envExportFails
                                          (queueRetried "root|east"))).
Proof.
  pose proof (proj1 worker_done_once_per_get envExportFails (queueRetried "root|east")
                "root|east" [] eq_refl) as (Hone & _ & Hfree).
  split; [exact Hone|exact Hfree].
Defined.

(** ** The event handlers *)

Lemma enqueueSyncTarget_key (E : Env) (obj : Object) (logSuffix key : string)
    (q : WorkQueue) :
  MetaClusterNamespaceKeyFunc E obj = inr key ->
  enqueueSyncTarget E obj logSuffix q =
    (tt, wqAdd key q,
     [Klog InfoV2 "Queueing SyncTarget %q%s" [AStr key; AStr logSuffix]; QueueAdd key]).
Proof. intros H. unfold enqueueSyncTarget. rewrite H. reflexivity. Qed.

(** C2, as the code has it: an added SyncTarget has its own key enqueued; an
    updated one has its key enqueued exactly when SupportedAPIExports or
    SyncedResources changed, and nothing is enqueued otherwise; a deleted one
    is not enqueued: the delete handler does nothing. *)
Theorem syncTarget_events_enqueue (E : Env) (q : WorkQueue) :
  (forall obj key,
     MetaClusterNamespaceKeyFunc E obj = inr key ->
     traceOf (syncTargetAddFunc E obj q) =
       [Klog InfoV2 "Queueing SyncTarget %q%s" [AStr key; AStr ""]; QueueAdd key]
     /\ queueOf (syncTargetAddFunc E obj q) = wqAdd key q)
  /\ (forall old new key,
        MetaClusterNamespaceKeyFunc E (ObjSyncTarget new) = inr key ->
        let changed :=
          SupportedAPIExports (Spec old) <> SupportedAPIExports (Spec new)
          \/ SyncedResources (Status old) <> SyncedResources (Status new) in
        (changed ->
           traceOf (syncTargetUpdateFunc E old new q) =
             [Klog InfoV2 "Queueing SyncTarget %q%s" [AStr key; AStr ""]; QueueAdd key]
           /\ queueOf (syncTargetUpdateFunc E old new q) = wqAdd key q)
        /\ (~ changed -> syncTargetUpdateFunc E old new q = (tt, q, []))
        /\ (In (QueueAdd key) (traceOf (syncTargetUpdateFunc E old new q)) <-> changed))
  /\ (forall obj, syncTargetDeleteFunc E obj q = (tt, q, [])).
Proof.
  split; [|split].
  - intros obj key Hk. unfold syncTargetAddFunc.
    rewrite (enqueueSyncTarget_key E obj "" key q Hk). split; reflexivity.
  - intros old new key Hk changed.
    assert (Hyes : changed ->
              syncTargetUpdateFunc E old new q =
                (tt, wqAdd key q,
                 [Klog InfoV2 "Queueing SyncTarget %q%s" [AStr key; AStr ""]; QueueAdd key])).
    { intros Hc. unfold syncTargetUpdateFunc. cbv zeta.
      rewrite <- (enqueueSyncTarget_key E (ObjSyncTarget new) "" key q Hk).
      destruct Hc as [Hc|Hc].
      - rewrite (bool_decide_eq_false_2 _ Hc). reflexivity.
      - rewrite (bool_decide_eq_false_2 _ Hc), orb_true_r. reflexivity. }
    assert (Hno : ~ changed -> syncTargetUpdateFunc E old new q = (tt, q, [])).
    { intros Hc. unfold syncTargetUpdateFunc. cbv zeta.
      destruct (decide (SupportedAPIExports (Spec old) = SupportedAPIExports (Spec new)))
        as [H1|H1]; [|exfalso; apply Hc; left; exact H1].
      destruct (decide (SyncedResources (Status old) = SyncedResources (Status new)))
        as [H2|H2]; [|exfalso; apply Hc; right; exact H2].
      rewrite (bool_decide_eq_true_2 _ H1), (bool_decide_eq_true_2 _ H2). reflexivity. }
    split; [|split].
    + intros Hc. rewrite (Hyes Hc). split; reflexivity.
    + exact Hno.
    + split.
      * intros Hin.
        destruct (decide (SupportedAPIExports (Spec old) = SupportedAPIExports (Spec new)))
          as [H1|H1]; [|left; exact H1].
        destruct (decide (SyncedResources (Status old) = SyncedResources (Status new)))
          as [H2|H2]; [|right; exact H2].
        rewrite Hno in Hin; [destruct Hin|].
        intros [Hc|Hc]; [exact (Hc H1)|exact (Hc H2)].
      * intros Hc. rewrite (Hyes Hc). right. left. reflexivity.
  - intros obj. reflexivity.
Qed.

Lemma syncTarget_events_enqueue_witness :
  traceOf (syncTargetAddFunc (envResolves [targetEast]) (ObjSyncTarget targetEast)
             emptyQueue)
    = [Klog InfoV2 "Queueing SyncTarget %q%s" [AStr "root|east"; AStr ""];
       QueueAdd "root|east"]
  /\ In (QueueAdd "root|east")
        (traceOf (syncTargetUpdateFunc (envResolves [targetEast]) targetEast
                    (withResources [cowboys] targetEast) emptyQueue))
  /\ syncTargetUpdateFunc (envResolves [targetEast]) targetEast targetEast emptyQueue
     = (tt, emptyQueue, []).
Proof.
  destruct (syncTarget_events_enqueue (envResolves [targetEast]) emptyQueue)
    as (Hadd & Hupd & _).
  split; [exact (proj1 (Hadd (ObjSyncTarget targetEast) "root|east" eq_refl))|].
  split.
  - pose proof (Hupd targetEast (withResources [cowboys] targetEast) "root|east" eq_refl)
      as (_ & _ & Hiff).
    apply (proj2 Hiff). right. discriminate.
  - pose proof (Hupd targetEast targetEast "root|east" eq_refl) as (_ & Hno & _).
    apply Hno. intros [H|H]; apply H; reflexivity.
Defined.

(** C2, as the specification words it, fails on delete: the key of a deleted
    SyncTarget is not enqueued. *)
Lemma deleted_syncTarget_is_not_enqueued :
  ~ (forall key,
       MetaClusterNamespaceKeyFunc (envResolves [targetEast]) (ObjSyncTarget targetEast)
         = inr key ->
       In (QueueAdd key)
          (traceOf (syncTargetDeleteFunc (envResolves [targetEast])
                      (ObjSyncTarget targetEast) emptyQueue))).
Proof. intros H. exact (H "root|east" eq_refl). Qed.

Lemma setList_In (s : gset string) (key : string) : In key (setList s) <-> key ∈ s.
Proof.
  unfold setList. rewrite <- list_elem_of_In.
  rewrite (merge_sort_Permutation string_le (elements s)).
  apply elem_of_elements.
Qed.

Lemma setInsert_elem (s : gset string) (items : list string) (key : string) :
  key ∈ setInsert s items <-> key ∈ s \/ In key items.
Proof.
  unfold setInsert. rewrite elem_of_union, elem_of_list_to_set, list_elem_of_In.
  reflexivity.
Qed.

(** The loop at the end of [enqueueAPIExport], over keys that the indexer
    resolves to objects with that very key. *)
Lemma enqueue_each_key (E : Env) (logSuffix : string) (keys : list string) :
  (forall key, In key keys ->
     exists o found, syncTargetGetByKey E key = inr (o, found)
                     /\ MetaClusterNamespaceKeyFunc E o = inr key) ->
  forall (q : WorkQueue) (key : string),
    In (QueueAdd key)
       (traceOf (forEach keys (fun key =>
          match syncTargetGetByKey E key with
          | inl err => emit (HandleError err)
          | inr (syncTarget, _) =>
              enqueueSyncTarget E syncTarget
                (" because of APIExport " ++ key ++ logSuffix)
          end) q))
    <-> In key keys.
Proof.
  induction keys as [|k keys IH]; intros Hstore q key.
  - simpl. tauto.
  - destruct (Hstore k (or_introl eq_refl)) as (o & found & Hget & Hkey).
    simpl forEach. unfold bind. rewrite Hget.
    rewrite (enqueueSyncTarget_key E o _ k q Hkey).
    specialize (IH (fun key' H => Hstore key' (or_intror H)) (wqAdd k q) key).
    destruct (forEach keys _ (wqAdd k q)) as [[u q'] t].
    unfold traceOf in *; simpl in *.
    split.
    + intros [H|[H|H]]; [discriminate|left; congruence|right; apply IH; exact H].
    + intros [H|H]; [right; left; congruence|right; right; apply IH; exact H].
Qed.

(** C4: for an APIExport event (add, update or delete, the object or its
    tombstone), when both by-export lookups succeed and the indexer resolves
    each key found to the object of that key, the SyncTarget keys enqueued
    are exactly those found under the logical-path alias (looked up when the
    kcp.io/path annotation is non-empty) together with those found under the
    native cluster form. *)
Theorem enqueueAPIExport_unions_both_lookups (E : Env) (obj : Object) (export : APIExport)
    (logSuffix : string) (q : WorkQueue) (pathKeys clusterKeys : list string) :
  let path := default "" (Annotations (exMeta export) !! "kcp.io/path") in
  let name := Name (exMeta export) in
  obj = ObjAPIExport export
  \/ (exists tombstoneKey, obj = ObjDeletedFinalStateUnknown tombstoneKey (ObjAPIExport export)) ->
  (path <> "" ->
   syncTargetIndexKeys E indexSyncTargetsByExport (pathJoin E path name) = inr pathKeys) ->
  syncTargetIndexKeys E indexSyncTargetsByExport
    (pathJoin E (logicalclusterFrom E (exMeta export)) name) = inr clusterKeys ->
  (forall key, (path <> "" /\ In key pathKeys) \/ In key clusterKeys ->
     exists o found, syncTargetGetByKey E key = inr (o, found)
                     /\ MetaClusterNamespaceKeyFunc E o = inr key) ->
  forall key,
    let found := (path <> "" /\ In key pathKeys) \/ In key clusterKeys in
    (In (QueueAdd key) (traceOf (enqueueAPIExport E obj logSuffix q)) <-> found)
    /\ (In (QueueAdd key) (traceOf (apiExportAddFunc E obj q)) <-> found)
    /\ (forall old, In (QueueAdd key) (traceOf (apiExportUpdateFunc E old obj q)) <-> found)
    /\ (In (QueueAdd key) (traceOf (apiExportDeleteFunc E obj q)) <-> found).
Proof.
  intros path name Hobj Hpath Hcluster Hstore key found.
  assert (Hall : forall suffix,
            In (QueueAdd key) (traceOf (enqueueAPIExport E obj suffix q)) <-> found).
  { intros suffix.
    assert (Hsame : enqueueAPIExport E obj suffix q
                    = enqueueAPIExport E (ObjAPIExport export) suffix q).
    { destruct Hobj as [->|[k ->]]; reflexivity. }
    rewrite Hsame. unfold enqueueAPIExport, found. cbv zeta.
    change LogicalClusterPathAnnotationKey with "kcp.io/path".
    fold path. fold name.
    destruct (decide (path <> "")) as [Hnonempty|Hempty].
    - rewrite (Hpath Hnonempty), Hcluster.
      rewrite enqueue_each_key.
      + rewrite setList_In, !setInsert_elem.
        pose proof (not_elem_of_empty (C := gset string) key). tauto.
      + intros k Hk. apply Hstore.
        apply setList_In in Hk. rewrite !setInsert_elem in Hk.
        pose proof (not_elem_of_empty (C := gset string) k). tauto.
    - rewrite Hcluster.
      rewrite enqueue_each_key.
      + rewrite setList_In, setInsert_elem.
        pose proof (not_elem_of_empty (C := gset string) key). tauto.
      + intros k Hk. apply Hstore. right.
        apply setList_In, setInsert_elem in Hk.
        pose proof (not_elem_of_empty (C := gset string) k). tauto. }
  split; [apply Hall|]. split; [apply Hall|]. split; [intros old; apply Hall|apply Hall].
Qed.

Lemma enqueueAPIExport_unions_both_lookups_witness :
  In (QueueAdd "other|west")
     (traceOf (enqueueAPIExport (envResolves [targetEast; targetWest])
                 (ObjAPIExport exportCowboys) "" emptyQueue))
  /\ In (QueueAdd "root|east")
        (traceOf (apiExportUpdateFunc (envResolves [targetEast; targetWest])
                    (ObjAPIExport exportCowboys) (ObjAPIExport exportCowboys) emptyQueue))
  /\ ~ In (QueueAdd "root|north")
          (traceOf (apiExportDeleteFunc (envResolves [targetEast; targetWest])
                      (ObjAPIExport exportCowboys) emptyQueue)).
Proof.
  pose proof (enqueueAPIExport_unions_both_lookups (envResolves [targetEast; targetWest])
                (ObjAPIExport exportCowboys) exportCowboys "" emptyQueue
                ["other|west"] ["root|east"]) as H.
  cbv zeta in H.
  specialize (H (or_introl eq_refl) (fun _ => eq_refl) eq_refl).
  assert (Hstore : forall key,
            (default "" (Annotations (exMeta exportCowboys) !! "kcp.io/path") <> ""
             /\ In key ["other|west"]) \/ In key ["root|east"] ->
            exists o found,
              syncTargetGetByKey (envResolves [targetEast; targetWest]) key = inr (o, found)
              /\ MetaClusterNamespaceKeyFunc (envResolves [targetEast; targetWest]) o
                 = inr key).
  { intros key [[_ [<-|[]]]|[<-|[]]].
    - exists (ObjSyncTarget targetWest), true. split; reflexivity.
    - exists (ObjSyncTarget targetEast), true. split; reflexivity. }
  specialize (H Hstore).
  split; [|split].
  - apply (proj2 (proj1 (H "other|west"))). left. split; [discriminate|left; reflexivity].
  - destruct (H "root|east") as (_ & _ & Hupd & _).
    apply (proj2 (Hupd (ObjAPIExport exportCowboys))). right. left. reflexivity.
  - intros Hin. destruct (H "root|north") as (_ & _ & _ & Hdel).
    destruct (proj1 Hdel Hin) as [[_ [Heq|[]]]|[Heq|[]]]; discriminate.
Defined.

(** * Further properties of the controller *)

(** ** Traces of loops and handlers *)

Lemma forEach_trace {A : Type} (l : list A) (body : A -> M unit) (tr : A -> list Event) :
  (forall x q, traceOf (body x q) = tr x) ->
  forall q, traceOf (forEach l body q) = flat_map tr l.
Proof.
  intros Hbody. induction l as [|x l IH]; intros q; [reflexivity|].
  simpl. unfold bind. specialize (Hbody x q).
  destruct (body x q) as [[u q1] t1]. specialize (IH q1).
  destruct (forEach l body q1) as [[u2 q2] t2].
  unfold traceOf in *; simpl in *. congruence.
Qed.

Lemma addedKeys_app (t1 t2 : list Event) :
  addedKeys (t1 ++ t2) = addedKeys t1 ++ addedKeys t2.
Proof. unfold addedKeys. apply flat_map_app. Qed.

(** The calls of one round of the loop of [enqueueAPIExport]. *)
Lemma enqueue_resolved_trace (E : Env) (logSuffix key : string) (q : WorkQueue) :
  addedKeys
    (traceOf (match syncTargetGetByKey E key with
              | inl err => emit (HandleError err)
              | inr (syncTarget, _) =>
                  enqueueSyncTarget E syncTarget
                    (" because of APIExport " ++ key ++ logSuffix)
              end q))
  = match resolvedKey E key with Some k => [k] | None => [] end.
Proof.
  unfold resolvedKey, enqueueSyncTarget.
  destruct (syncTargetGetByKey E key) as [err|[o found]]; [reflexivity|].
  destruct (MetaClusterNamespaceKeyFunc E o); reflexivity.
Qed.

Lemma enqueue_loop_addedKeys (E : Env) (logSuffix : string) (keys : list string)
    (q : WorkQueue) :
  addedKeys
    (traceOf (forEach keys (fun key =>
       match syncTargetGetByKey E key with
       | inl err => emit (HandleError err)
       | inr (syncTarget, _) =>
           enqueueSyncTarget E syncTarget
             (" because of APIExport " ++ key ++ logSuffix)
       end) q))
  = omap (resolvedKey E) keys.
Proof.
  revert q. induction keys as [|key keys IH]; intros q; [reflexivity|].
  simpl forEach. unfold bind.
  pose proof (enqueue_resolved_trace E logSuffix key q) as Hone.
  destruct (match syncTargetGetByKey E key with
            | inl err => emit (HandleError err)
            | inr (syncTarget, _) => _
            end q) as [[u q1] t1].
  specialize (IH q1).
  destruct (forEach keys _ q1) as [[u2 q2] t2].
  unfold traceOf in *; simpl in *.
  rewrite addedKeys_app, Hone, IH.
  destruct (resolvedKey E key); reflexivity.
Qed.

(** The keys that the two by-export lookups of [enqueueAPIExport] find. *)
Lemma found_keys_set (path : string) (pathKeys clusterKeys : list string) :
  setInsert (if decide (path <> "") then setInsert ∅ pathKeys else ∅) clusterKeys
  = list_to_set ((if decide (path <> "") then pathKeys else []) ++ clusterKeys).
Proof.
  unfold setInsert. rewrite list_to_set_app_L.
  destruct (decide (path <> "")); simpl; [rewrite (left_id_L ∅ (∪))|]; reflexivity.
Qed.

Lemma enqueueAPIExport_of_export (E : Env) (export : APIExport) (logSuffix : string)
    (q : WorkQueue) (pathKeys clusterKeys : list string) :
  let path := default "" (Annotations (exMeta export) !! "kcp.io/path") in
  let name := Name (exMeta export) in
  (path <> "" ->
   syncTargetIndexKeys E indexSyncTargetsByExport (pathJoin E path name) = inr pathKeys) ->
  syncTargetIndexKeys E indexSyncTargetsByExport
    (pathJoin E (logicalclusterFrom E (exMeta export)) name) = inr clusterKeys ->
  addedKeys (traceOf (enqueueAPIExport E (ObjAPIExport export) logSuffix q))
  = omap (resolvedKey E)
      (setList (list_to_set ((if decide (path <> "") then pathKeys else []) ++ clusterKeys))).
Proof.
  intros path name Hpath Hcluster.
  rewrite <- found_keys_set.
  unfold enqueueAPIExport. cbv zeta.
  change LogicalClusterPathAnnotationKey with "kcp.io/path".
  fold path. fold name.
  destruct (decide (path <> "")) as [Hnonempty|Hempty].
  - rewrite (Hpath Hnonempty), Hcluster. apply enqueue_loop_addedKeys.
  - rewrite Hcluster. apply enqueue_loop_addedKeys.
Qed.

(** ** [enqueueAPIExport] beyond the consistent store *)



Global Instance string_le_total : Total string_le.
Proof. intros a b. apply String.leb_total. Qed.

Lemma omap_resolved_id (E : Env) (keys : list string) :
  (forall key, In key keys -> resolvedKey E key = Some key) ->
  omap (resolvedKey E) keys = keys.
Proof.
  induction keys as [|key keys IH]; intros Hres; [reflexivity|].
  simpl. rewrite (Hres key (or_introl eq_refl)). f_equal.
  apply IH. intros k Hk. apply Hres. right. exact Hk.
Qed.

(** X2: when the indexer resolves every key found to the object of that key,
    [enqueueAPIExport] adds each found key exactly once, also a key found
    under both forms of the export, and in increasing order. *)
Theorem enqueueAPIExport_adds_each_key_once (E : Env) (obj : Object) (export : APIExport)
    (logSuffix : string) (q : WorkQueue) (pathKeys clusterKeys : list string) :
  let path := default "" (Annotations (exMeta export) !! "kcp.io/path") in
  let name := Name (exMeta export) in
  let found := (if decide (path <> "") then pathKeys else []) ++ clusterKeys in
  obj = ObjAPIExport export
  \/ (exists tombstoneKey, obj = ObjDeletedFinalStateUnknown tombstoneKey (ObjAPIExport export)) ->
  (path <> "" ->
   syncTargetIndexKeys E indexSyncTargetsByExport (pathJoin E path name) = inr pathKeys) ->
  syncTargetIndexKeys E indexSyncTargetsByExport
    (pathJoin E (logicalclusterFrom E (exMeta export)) name) = inr clusterKeys ->
  (forall key, In key found -> resolvedKey E key = Some key) ->
  let added := addedKeys (traceOf (enqueueAPIExport E obj logSuffix q)) in
  NoDup added
  /\ Sorted string_le added
  /\ (forall key, In key added <-> In key found).
Proof.
  intros path name found Hobj Hpath Hcluster Hres added.
  assert (Hsame : enqueueAPIExport E obj logSuffix q
                  = enqueueAPIExport E (ObjAPIExport export) logSuffix q).
  { destruct Hobj as [->|[k ->]]; reflexivity. }
  assert (Hadded : added = setList (list_to_set found)).
  { unfold added. rewrite Hsame.
    rewrite (enqueueAPIExport_of_export E export logSuffix q pathKeys clusterKeys
               Hpath Hcluster).
    apply omap_resolved_id. intros key Hk. apply Hres.
    apply setList_In, elem_of_list_to_set, list_elem_of_In in Hk. exact Hk. }
  rewrite Hadded. split; [|split].
  - unfold setList. rewrite (merge_sort_Permutation string_le). apply NoDup_elements.
  - unfold setList. apply Sorted_merge_sort. apply string_le_total.
  - intros key. rewrite setList_In, elem_of_list_to_set, list_elem_of_In. reflexivity.
Qed.

Lemma enqueueAPIExport_adds_each_key_once_witness :
  NoDup (addedKeys (traceOf (enqueueAPIExport (envResolves [targetEast; targetWest])
                               (ObjAPIExport exportCowboys) "" emptyQueue)))
  /\ addedKeys (traceOf (enqueueAPIExport (envResolves [targetEast; targetWest])
                           (ObjAPIExport exportCowboys) "" emptyQueue))
     = ["other|west"; "root|east"].
Proof.
  pose proof (enqueueAPIExport_adds_each_key_once (envResolves [targetEast; targetWest])
                (ObjAPIExport exportCowboys) exportCowboys "" emptyQueue
                ["other|west"] ["root|east"]) as H.
  cbv zeta in H.
  specialize (H (or_introl eq_refl) (fun _ => eq_refl) eq_refl).
  assert (Hres : forall key,
            In key ((if decide (default "" (Annotations (exMeta exportCowboys)
                                              !! "kcp.io/path") <> "")
                     then ["other|west"] else []) ++ ["root|east"]) ->
            resolvedKey (envResolves [targetEast; targetWest]) key = Some key).
  { intros key Hk. vm_compute in Hk. destruct Hk as [<-|[<-|[]]]; reflexivity. }
  split; [exact (proj1 (H Hres))|reflexivity].
Defined.

(** X3: [enqueueAPIExport] reports one error and adds nothing, leaving the
    queue as it was, when the object is not an APIExport (nor the tombstone
    of one), when the lookup under the logical path fails, and when the
    lookup under the cluster form fails; a failing lookup under the logical
    path also drops the keys the cluster form would have found. *)
Theorem enqueueAPIExport_failure_adds_nothing (E : Env) (obj : Object) (logSuffix : string)
    (q : WorkQueue) :
  let inner := match obj with ObjDeletedFinalStateUnknown _ d => d | _ => obj end in
  (forall export, inner <> ObjAPIExport export)
  \/ (exists export err,
        inner = ObjAPIExport export
        /\ let path := default "" (Annotations (exMeta export) !! "kcp.io/path") in
           (path <> ""
            /\ syncTargetIndexKeys E indexSyncTargetsByExport
                 (pathJoin E path (Name (exMeta export))) = inl err)
           \/ syncTargetIndexKeys E indexSyncTargetsByExport
                (pathJoin E (logicalclusterFrom E (exMeta export)) (Name (exMeta export)))
              = inl err) ->
  exists err,
    enqueueAPIExport E obj logSuffix q = (tt, q, [HandleError err]).
Proof.
  intros inner Hfail.
  assert (Hinner : enqueueAPIExport E obj logSuffix q = enqueueAPIExport E inner logSuffix q
                   \/ exists k d, inner = ObjDeletedFinalStateUnknown k d).
  { unfold inner. destruct obj as [st|ex|k d| |t]; try (left; reflexivity).
    destruct d as [st|ex|k' d'| |t]; try (left; reflexivity).
    right. eauto. }
  destruct Hfail as [Hnot|(export & err & Hexp & Hlookup)].
  - unfold enqueueAPIExport. fold inner.
    destruct inner as [st|ex|k d| |t]; try (eexists; reflexivity).
    exfalso. exact (Hnot ex eq_refl).
  - destruct Hinner as [->|(k & d & Hd)]; [|congruence].
    rewrite Hexp. unfold enqueueAPIExport. cbv zeta.
    change LogicalClusterPathAnnotationKey with "kcp.io/path".
    destruct Hlookup as [[Hpath Herr]|Herr].
    + rewrite decide_True by exact Hpath. rewrite Herr. eexists; reflexivity.
    + destruct (decide (_ <> "")).
      * destruct (syncTargetIndexKeys E indexSyncTargetsByExport
                    (pathJoin E (default "" (Annotations (exMeta export) !! "kcp.io/path"))
                       (Name (exMeta export)))) as [e|pathKeys] eqn:Hp.
        { eexists; reflexivity. }
        rewrite Herr. eexists; reflexivity.
      * rewrite Herr. eexists; reflexivity.
Qed.

Lemma enqueueAPIExport_failure_adds_nothing_witness :
  (exists err, enqueueAPIExport envNoIndex (ObjAPIExport exportCowboys) "" emptyQueue
               = (tt, emptyQueue, [HandleError err]))
  /\ (exists err, enqueueAPIExport envStaleIndex (ObjSyncTarget targetEast) "" emptyQueue
                  = (tt, emptyQueue, [HandleError err])).
Proof.
  split.
  - apply (enqueueAPIExport_failure_adds_nothing envNoIndex (ObjAPIExport exportCowboys)
             "" emptyQueue).
    right. exists exportCowboys,
      (ErrText ("Index with name " ++ indexSyncTargetsByExport ++ " does not exist")).
    split; [reflexivity|]. left. split; [discriminate|reflexivity].
  - apply (enqueueAPIExport_failure_adds_nothing envStaleIndex (ObjSyncTarget targetEast)
             "" emptyQueue).
    left. discriminate.
Defined.

(** ** The schema and import handlers *)

Lemma enqueueSyncTarget_trace_indep (E : Env) (obj : Object) (logSuffix : string)
    (q q' : WorkQueue) :
  traceOf (enqueueSyncTarget E obj logSuffix q) = traceOf (enqueueSyncTarget E obj logSuffix q').
Proof.
  unfold enqueueSyncTarget. destruct (MetaClusterNamespaceKeyFunc E obj); reflexivity.
Qed.

(** The calls of [enqueueAPIExport] do not depend on the state of the queue. *)
Lemma enqueueAPIExport_trace_indep (E : Env) (obj : Object) (logSuffix : string)
    (q q' : WorkQueue) :
  traceOf (enqueueAPIExport E obj logSuffix q) = traceOf (enqueueAPIExport E obj logSuffix q').
Proof.
  assert (Hloop : forall keys,
    traceOf (forEach keys (fun key =>
       match syncTargetGetByKey E key with
       | inl err => emit (HandleError err)
       | inr (syncTarget, _) =>
           enqueueSyncTarget E syncTarget (" because of APIExport " ++ key ++ logSuffix)
       end) q)
    = traceOf (forEach keys (fun key =>
       match syncTargetGetByKey E key with
       | inl err => emit (HandleError err)
       | inr (syncTarget, _) =>
           enqueueSyncTarget E syncTarget (" because of APIExport " ++ key ++ logSuffix)
       end) q')).
  { intros keys.
    rewrite !(forEach_trace keys _
                (fun key => traceOf (match syncTargetGetByKey E key with
                                     | inl err => emit (HandleError err)
                                     | inr (syncTarget, _) =>
                                         enqueueSyncTarget E syncTarget
                                           (" because of APIExport " ++ key ++ logSuffix)
                                     end emptyQueue))); [reflexivity| |];
      intros key q0; destruct (syncTargetGetByKey E key) as [err|[o found]];
      try reflexivity; apply enqueueSyncTarget_trace_indep. }
  unfold enqueueAPIExport. cbv zeta.
  destruct (match obj with ObjDeletedFinalStateUnknown _ d => d | _ => obj end)
    as [st|export|k d| |t]; try reflexivity.
  destruct (decide (_ <> "")).
  - destruct (syncTargetIndexKeys E _ (pathJoin E (default "" _) _)); [reflexivity|].
    destruct (syncTargetIndexKeys E _ _); [reflexivity|]. apply Hloop.
  - destruct (syncTargetIndexKeys E _ _); [reflexivity|]. apply Hloop.
Qed.

(** X4: an APIResourceSchema event is routed through every object that the
    by-schema index returns for the key of the schema, in the order of the
    index: the calls are those of [enqueueAPIExport] on each of them, one
    after the other, so an entry that fails does not stop the entries after
    it.  When the key of the schema or the index lookup fails, the error is
    reported and nothing is added. *)
Theorem enqueueAPIResourceSchema_fans_out (E : Env) (X : HandlerEnv) (obj : Object)
    (q : WorkQueue) :
  (forall err,
     DeletionHandlingMetaClusterNamespaceKeyFunc X obj = inl err ->
     enqueueAPIResourceSchema E X obj q = (tt, q, [HandleError err]))
  /\ (forall key err,
        DeletionHandlingMetaClusterNamespaceKeyFunc X obj = inr key ->
        apiExportsByIndex X indexAPIExportsByAPIResourceSchema key = inl err ->
        enqueueAPIResourceSchema E X obj q = (tt, q, [HandleError err]))
  /\ (forall key apiExports,
        DeletionHandlingMetaClusterNamespaceKeyFunc X obj = inr key ->
        apiExportsByIndex X indexAPIExportsByAPIResourceSchema key = inr apiExports ->
        traceOf (enqueueAPIResourceSchema E X obj q)
        = flat_map (fun export =>
                      traceOf (enqueueAPIExport E export
                                 (" because of APIResourceSchema " ++ key) emptyQueue))
            apiExports).
Proof.
  split; [|split].
  - intros err Hk. unfold enqueueAPIResourceSchema. rewrite Hk. reflexivity.
  - intros key err Hk Hi. unfold enqueueAPIResourceSchema. rewrite Hk, Hi. reflexivity.
  - intros key apiExports Hk Hi. unfold enqueueAPIResourceSchema. rewrite Hk, Hi.
    apply forEach_trace. intros export q0. apply enqueueAPIExport_trace_indep.
Qed.

Lemma enqueueAPIResourceSchema_fans_out_witness :
  addedKeys (traceOf (enqueueAPIResourceSchema (envResolves [targetEast; targetWest])
                        handlersSample (ObjOther "*v1alpha1.APIResourceSchema") emptyQueue))
  = [] /\
  addedKeys (traceOf (enqueueAPIResourceSchema (envResolves [targetEast; targetWest])
                        handlersSample
                        (ObjDeletedFinalStateUnknown "root|today.cowboys.wildwest.dev" ObjNil)
                        emptyQueue))
  = ["other|west"; "root|east"; "other|west"; "root|east"].
Proof.
  split.
  - rewrite (proj1 (enqueueAPIResourceSchema_fans_out (envResolves [targetEast; targetWest])
                      handlersSample (ObjOther "*v1alpha1.APIResourceSchema") emptyQueue)
               (ErrText "object has no meta") eq_refl).
    reflexivity.
  - rewrite (proj2 (proj2 (enqueueAPIResourceSchema_fans_out
                             (envResolves [targetEast; targetWest]) handlersSample
                             (ObjDeletedFinalStateUnknown "root|today.cowboys.wildwest.dev"
                                ObjNil) emptyQueue))
               "root|today.cowboys.wildwest.dev" _ eq_refl eq_refl).
    vm_compute. reflexivity.
Defined.




(** ** The worker loop *)








(** ** When a pass succeeds and when it patches *)

Lemma process_changed_result (E : Env) (key : string) (q : WorkQueue)
    (syncTarget : SyncTarget) :
  fetched E key = Some syncTarget ->
  collectedErrs E syncTarget = [] ->
  reconciledResources E syncTarget <> SyncedResources (Status syncTarget) ->
  (forall patchBytes,
     mergePatchOf E syncTarget = inr patchBytes ->
     resultOf (process E key q)
     = clientPatch E (logicalclusterFrom E (stMeta (afterAPICompatible E syncTarget).1))
         (Name (stMeta (afterAPICompatible E syncTarget).1)) MergePatchType patchBytes
         ["status"])
  /\ (forall err,
        mergePatchOf E syncTarget = inl err -> resultOf (process E key q) <> None).
Proof.
  intros Hf Hnil Hd. rewrite (process_changed E key syncTarget Hf _ Hnil Hd).
  unfold mergePatchOf.
  destruct (jsonMarshal E (oldDocument syncTarget)) as [e|oldData].
  { split; [discriminate|]. intros; discriminate. }
  destruct (jsonMarshal E (newDocument syncTarget _)) as [e|newData].
  { split; [discriminate|]. intros; discriminate. }
  destruct (CreateMergePatch E oldData newData) as [e|patchBytes].
  { split; [discriminate|]. intros; discriminate. }
  split; [|discriminate]. intros p Hp. injection Hp as <-. reflexivity.
Qed.

(** X8: [process] returns nil, so that the worker forgets the key, exactly
    in these cases: the key does not split or the lister has no object for
    it; or no step returned an error and either the status list is
    unchanged, or the two documents marshal into a merge patch and the patch
    call succeeds.  In every other case it returns an error and the key is
    retried. *)
Theorem process_succeeds_iff (E : Env) (key : string) (q : WorkQueue) :
  resultOf (process E key q) = None <->
  fetched E key = None
  \/ (exists syncTarget,
        fetched E key = Some syncTarget
        /\ collectedErrs E syncTarget = []
        /\ (reconciledResources E syncTarget = SyncedResources (Status syncTarget)
            \/ (exists patchBytes,
                  mergePatchOf E syncTarget = inr patchBytes
                  /\ let current := (afterAPICompatible E syncTarget).1 in
                     clientPatch E (logicalclusterFrom E (stMeta current))
                       (Name (stMeta current)) MergePatchType patchBytes ["status"]
                     = None))).
Proof.
  destruct (fetched E key) as [st|] eqn:Hf.
  - destruct (decide (collectedErrs E st = [])) as [Hnil|Herr].
    + destruct (decide (reconciledResources E st = SyncedResources (Status st))) as [Hs|Hd].
      * rewrite (process_unchanged E key st Hf _ Hnil Hs). split; [|reflexivity].
        intros _. right. exists st. auto.
      * destruct (process_changed_result E key q st Hf Hnil Hd) as [Hok Hbad].
        destruct (mergePatchOf E st) as [e|patchBytes] eqn:Hm.
        { split; [intros Hr; destruct (Hbad e eq_refl Hr)|].
          intros [H|(st' & Hst & _ & Hcase)]; [discriminate|].
          injection Hst as <-. destruct Hcase as [H|(p & Hp & _)]; [contradiction|].
          congruence. }
        rewrite (Hok patchBytes eq_refl). split.
        { intros Hr. right. exists st. split; [reflexivity|]. split; [exact Hnil|].
          right. exists patchBytes. split; [exact Hm|exact Hr]. }
        intros [H|(st' & Hst & _ & Hcase)]; [discriminate|].
        injection Hst as <-. destruct Hcase as [H|(p & Hp & Hr)]; [contradiction|].
        rewrite Hm in Hp. injection Hp as <-. exact Hr.
    + rewrite (process_with_errors E key st Hf _ Herr). split.
      * unfold resultOf; simpl. destruct (collectedErrs E st); [contradiction|discriminate].
      * intros [H|(st' & Hst & Hnil & _)]; [discriminate|].
        injection Hst as <-. contradiction.
  - split; [intros _; left; reflexivity|]. intros _.
    destruct (fetched_None_cases E key Hf) as [[e Hs]|(c & ns & n & e & Hs & Hg)].
    + rewrite (process_malformed_key E key _ e Hs). reflexivity.
    + rewrite (process_fetch_failed E key _ c ns n e Hs Hg). reflexivity.
Qed.

(** X9: a pass makes at most one patch call, and it makes one only for an
    object the lister returned, after both steps succeeded, with a status
    list that differs from the observed one, and with the merge patch of the
    two documents: never for a missing object, after a failed step, or for
    an unchanged status. *)
Theorem process_patches_only_changed_status (E : Env) (key : string) (q : WorkQueue) :
  patchCalls (traceOf (process E key q)) = []
  \/ (exists syncTarget patchBytes,
        fetched E key = Some syncTarget
        /\ collectedErrs E syncTarget = []
        /\ reconciledResources E syncTarget <> SyncedResources (Status syncTarget)
        /\ mergePatchOf E syncTarget = inr patchBytes
        /\ patchCalls (traceOf (process E key q)) = [statusPatch E syncTarget patchBytes]).
Proof.
  destruct (fetched E key) as [st|] eqn:Hf.
  - destruct (decide (collectedErrs E st = [])) as [Hnil|Herr].
    + destruct (decide (reconciledResources E st = SyncedResources (Status st))) as [Hs|Hd].
      * left. rewrite (process_unchanged E key st Hf _ Hnil Hs). reflexivity.
      * rewrite (process_changed E key st Hf _ Hnil Hd).
        destruct (jsonMarshal E (oldDocument st)) as [e|oldData] eqn:Ho;
          [left; reflexivity|].
        destruct (jsonMarshal E (newDocument st _)) as [e|newData] eqn:Hn;
          [left; reflexivity|].
        destruct (CreateMergePatch E oldData newData) as [e|patchBytes] eqn:Hp;
          [left; reflexivity|].
        right. exists st, patchBytes. split; [reflexivity|]. split; [exact Hnil|].
        split; [exact Hd|]. split.
        { unfold mergePatchOf. rewrite Ho, Hn. exact Hp. }
        cbv zeta. unfold traceOf; simpl.
        destruct (clientPatch E _ _ _ _ _); reflexivity.
    + left. rewrite (process_with_errors E key st Hf _ Herr). reflexivity.
  - left. destruct (fetched_None_cases E key Hf) as [[e Hs]|(c & ns & n & e & Hs & Hg)].
    + rewrite (process_malformed_key E key _ e Hs). reflexivity.
    + rewrite (process_fetch_failed E key _ c ns n e Hs Hg). reflexivity.
Qed.

(** ** What the event handlers never do *)

Lemma routed_ret : routed (ret tt).
Proof. intros q. split; [constructor|reflexivity]. Qed.

Lemma routed_emit_error (err : Err) : routed (emit (HandleError err)).
Proof. intros q. split; [repeat constructor|reflexivity]. Qed.

Lemma routed_emit_log (sev : Severity) (format : string) (args : list LogArg) :
  routed (emit (Klog sev format args)).
Proof. intros q. split; [repeat constructor|reflexivity]. Qed.

Ltac routed_emit := first [apply routed_emit_error | apply routed_emit_log].

Lemma routed_queueAdd (key : string) : routed (queueAdd key).
Proof. intros q. split; [repeat constructor|reflexivity]. Qed.

Lemma routed_bind (m : M unit) (k : unit -> M unit) :
  routed m -> (forall u, routed (k u)) -> routed (bind m k).
Proof.
  intros Hm Hk q. unfold bind. specialize (Hm q).
  destruct (m q) as [[u q1] t1]. specialize (Hk u q1).
  destruct (k u q1) as [[u2 q2] t2].
  unfold queueOf, traceOf in *; simpl in *.
  destruct Hm as [Hm1 Hm2]. destruct Hk as [Hk1 Hk2].
  split; [apply Forall_app; split; assumption|].
  rewrite addedKeys_app, foldl_app, <- Hm2. exact Hk2.
Qed.

Lemma routed_forEach {A : Type} (l : list A) (body : A -> M unit) :
  (forall x, routed (body x)) -> routed (forEach l body).
Proof.
  intros Hbody. induction l as [|x l IH]; [apply routed_ret|].
  simpl. apply routed_bind; [apply Hbody|]. intros _. exact IH.
Qed.

Lemma routed_enqueueSyncTarget (E : Env) (obj : Object) (logSuffix : string) :
  routed (enqueueSyncTarget E obj logSuffix).
Proof.
  unfold enqueueSyncTarget. destruct (MetaClusterNamespaceKeyFunc E obj).
  - routed_emit.
  - apply routed_bind; [routed_emit|]. intros _. apply routed_queueAdd.
Qed.

Lemma routed_enqueueAPIExport (E : Env) (obj : Object) (logSuffix : string) :
  routed (enqueueAPIExport E obj logSuffix).
Proof.
  assert (Hloop : forall keys,
    routed (forEach keys (fun key =>
       match syncTargetGetByKey E key with
       | inl err => emit (HandleError err)
       | inr (syncTarget, _) =>
           enqueueSyncTarget E syncTarget (" because of APIExport " ++ key ++ logSuffix)
       end))).
  { intros keys. apply routed_forEach. intros key.
    destruct (syncTargetGetByKey E key) as [err|[o found]].
    - routed_emit.
    - apply routed_enqueueSyncTarget. }
  unfold enqueueAPIExport. cbv zeta.
  destruct (match obj with ObjDeletedFinalStateUnknown _ d => d | _ => obj end)
    as [st|export|k d| |t]; try (routed_emit).
  destruct (decide (_ <> "")).
  - destruct (syncTargetIndexKeys E _ (pathJoin E (default "" _) _));
      [routed_emit|].
    destruct (syncTargetIndexKeys E _ _); [routed_emit|]. apply Hloop.
  - destruct (syncTargetIndexKeys E _ _); [routed_emit|]. apply Hloop.
Qed.

(** X13: the event handlers only report, log and add: whatever the event
    and whatever the caches answer, the calls of the SyncTarget, APIExport,
    APIResourceSchema and APIResourceImport handlers are calls of the error
    sink, of the logger and of [queue.Add], never [Get], [Done], [Forget],
    [AddRateLimited], a reconciler or [Patch]; and the queue they leave is
    the queue they found with the added keys added in that order. *)
Theorem event_handlers_only_add (E : Env) (X : HandlerEnv) :
  (forall obj, routed (syncTargetAddFunc E obj))
  /\ (forall old new, routed (syncTargetUpdateFunc E old new))
  /\ (forall obj, routed (syncTargetDeleteFunc E obj))
  /\ (forall obj logSuffix, routed (enqueueAPIExport E obj logSuffix))
  /\ (forall obj, routed (enqueueAPIResourceSchema E X obj))
  /\ (forall obj, routed (apiResourceImportAddFunc E X obj))
  /\ (forall old new, routed (apiResourceImportUpdateFunc E X old new))
  /\ (forall obj, routed (apiResourceImportDeleteFunc E X obj)).
Proof.
  assert (Himport : forall obj, routed (enqueueAPIResourceImport E X obj)).
  { intros [apiImport|other]; unfold enqueueAPIResourceImport.
    - cbv zeta. apply routed_bind; [routed_emit|].
      intros _. apply routed_queueAdd.
    - routed_emit. }
  split; [|split; [|split; [|split; [|split; [|split; [|split]]]]]].
  - intros obj. apply routed_enqueueSyncTarget.
  - intros old new. unfold syncTargetUpdateFunc. cbv zeta.
    destruct (_ || _); [apply routed_enqueueSyncTarget|apply routed_ret].
  - intros obj. apply routed_ret.
  - intros obj logSuffix. apply routed_enqueueAPIExport.
  - intros obj. unfold enqueueAPIResourceSchema.
    destruct (DeletionHandlingMetaClusterNamespaceKeyFunc X obj) as [err|key];
      [routed_emit|].
    destruct (apiExportsByIndex X _ key) as [err|apiExports];
      [routed_emit|].
    apply routed_forEach. intros export. apply routed_enqueueAPIExport.
  - exact Himport.
  - intros old new. unfold apiResourceImportUpdateFunc. cbv zeta.
    destruct (negb _); [apply Himport|apply routed_ret].
  - intros obj. apply routed_ret.
Qed.

(** * Properties of the shard's reading of /readyz *)

(** ** Byte strings *)

Lemma str_app_cons (c : ascii) (a b : string) :
  (String c a ++ b)%string = String c (a ++ b)%string.
Proof. reflexivity. Qed.

Lemma str_app_nil_l (b : string) : (EmptyString ++ b)%string = b.
Proof. reflexivity. Qed.

Lemma str_length_app (a b : string) :
  String.length (a ++ b)%string = String.length a + String.length b.
Proof. induction a as [|c a IH]; simpl; [reflexivity|]. f_equal. exact IH. Qed.

Lemma str_app_assoc (a b c : string) : ((a ++ b) ++ c = a ++ (b ++ c))%string.
Proof.
  induction a as [|x a IH]; [reflexivity|].
  change (String x ((a ++ b) ++ c) = String x (a ++ (b ++ c)))%string.
  f_equal. exact IH.
Qed.

Lemma strTake_app (a b : string) : strTake (String.length a) (a ++ b)%string = a.
Proof. induction a as [|c a IH]; simpl; [destruct b; reflexivity|]. f_equal. exact IH. Qed.

Lemma strDrop_app (a b : string) : strDrop (String.length a) (a ++ b)%string = b.
Proof. induction a as [|c a IH]; simpl; [destruct b; reflexivity|]. exact IH. Qed.

Lemma strTake_length (n : nat) (s : string) : String.length (strTake n s) <= n.
Proof.
  revert s. induction n as [|n IH]; intros [|c s]; simpl; try lia.
  specialize (IH s). lia.
Qed.

Lemma strDrop_length (n : nat) (s : string) :
  String.length (strDrop n s) = String.length s - n.
Proof.
  revert s. induction n as [|n IH]; intros [|c s]; simpl; try lia. apply IH.
Qed.

Lemma HasPrefix_app (p a : string) : HasPrefix (p ++ a)%string p = true.
Proof.
  unfold HasPrefix. rewrite strTake_app, String.eqb_refl, str_length_app.
  rewrite andb_true_r. apply Nat.leb_le. lia.
Qed.

Lemma TrimPrefix_app (p a : string) : TrimPrefix (p ++ a)%string p = a.
Proof. unfold TrimPrefix. rewrite HasPrefix_app. apply strDrop_app. Qed.

Lemma HasSuffix_app (a suffix : string) : HasSuffix (a ++ suffix)%string suffix = true.
Proof.
  unfold HasSuffix. rewrite str_length_app.
  replace (String.length a + String.length suffix - String.length suffix)
    with (String.length a) by lia.
  rewrite strDrop_app, String.eqb_refl, andb_true_r. apply Nat.leb_le. lia.
Qed.

Lemma TrimSuffix_app (a suffix : string) : TrimSuffix (a ++ suffix)%string suffix = a.
Proof.
  unfold TrimSuffix. rewrite HasSuffix_app, str_length_app.
  replace (String.length a + String.length suffix - String.length suffix)
    with (String.length a) by lia.
  apply strTake_app.
Qed.

Lemma strTake_strDrop (n : nat) (s : string) : (strTake n s ++ strDrop n s)%string = s.
Proof.
  revert s. induction n as [|n IH]; intros [|c s]; simpl; try reflexivity.
  change (String c (strTake n s ++ strDrop n s)%string = String c s).
  f_equal. apply IH.
Qed.

Lemma HasSuffix_inv (s suffix : string) :
  HasSuffix s suffix = true -> exists a, s = (a ++ suffix)%string.
Proof.
  unfold HasSuffix. intros H. apply andb_true_iff in H as [_ H].
  apply String.eqb_eq in H.
  exists (strTake (String.length s - String.length suffix) s).
  pose proof (strTake_strDrop (String.length s - String.length suffix) s) as Hsplit.
  rewrite H in Hsplit. symmetry. exact Hsplit.
Qed.

(** The last byte of a string. *)
Lemma str_app_last (a b : string) (c d : ascii) :
  (a ++ String c EmptyString = b ++ String d EmptyString)%string -> c = d.
Proof.
  revert b. induction a as [|x a IH]; intros [|y b] H;
    rewrite ?str_app_cons, ?str_app_nil_l in H.
  - congruence.
  - injection H as _ H. destruct b; discriminate.
  - injection H as _ H. destruct a; discriminate.
  - injection H as _ H. exact (IH b H).
Qed.

Lemma TrimPrefix_length (s p : string) : String.length (TrimPrefix s p) <= String.length s.
Proof.
  unfold TrimPrefix. destruct (HasPrefix s p); [|lia].
  rewrite strDrop_length. lia.
Qed.

(** A line stands for a name that is not the line itself exactly when it
    ends with the withheld reason or starts with the mark of a failed check. *)
Lemma componentName_changed (line : string) :
  componentName line <> line
  <-> HasSuffix line reasonWithheld = true \/ HasPrefix line failedMark = true.
Proof.
  unfold componentName, TrimSuffix.
  destruct (HasSuffix line reasonWithheld) eqn:Hs.
  - split; [auto|]. intros _ Heq.
    pose proof (TrimPrefix_length
                  (strTake (String.length line - String.length reasonWithheld) line)
                  failedMark) as H1.
    pose proof (strTake_length (String.length line - String.length reasonWithheld) line)
      as H2.
    rewrite Heq in H1.
    unfold HasSuffix in Hs. apply andb_true_iff in Hs as [Hs _].
    apply Nat.leb_le in Hs. simpl in *. lia.
  - unfold TrimPrefix. destruct (HasPrefix line failedMark) eqn:Hp.
    + split; [auto|]. intros _ Heq.
      pose proof (strDrop_length (String.length failedMark) line) as H1.
      rewrite Heq in H1.
      unfold HasPrefix in Hp. apply andb_true_iff in Hp as [Hp _].
      apply Nat.leb_le in Hp. simpl in *. lia.
    + split; [congruence|]. intros [H|H]; discriminate.
Qed.

(** ** Lines *)

Lemma Index_unfold (s substr : string) :
  Index s substr =
    if HasPrefix s substr then Some 0
    else match s with
         | EmptyString => None
         | String _ s' => S <$> Index s' substr
         end.
Proof. destruct s; reflexivity. Qed.

Lemma splitLoop_unfold (fuel : nat) (s sep : string) :
  splitLoop fuel s sep =
    match Index s sep with
    | None => [s]
    | Some m =>
        match fuel with
        | O => [s]
        | S fuel' => strTake m s :: splitLoop fuel' (strDrop (m + String.length sep) s) sep
        end
    end.
Proof. destruct fuel; reflexivity. Qed.

Lemma HasPrefix_separator_other (c : ascii) (s : string) :
  Ascii.eqb c "\"%char = false -> HasPrefix (String c s) lineSeparator = false.
Proof.
  intros Hc. unfold HasPrefix. apply andb_false_iff. right.
  unfold lineSeparator. simpl. rewrite Hc. reflexivity.
Qed.

Lemma noBackslash_cons (c : ascii) (s : string) :
  noBackslash (String c s) = true -> Ascii.eqb c "\"%char = false /\ noBackslash s = true.
Proof.
  simpl. intros H. apply andb_true_iff in H as [Hc Hs].
  apply negb_true_iff in Hc. auto.
Qed.

Lemma noBackslash_app (a b : string) :
  noBackslash (a ++ b)%string = noBackslash a && noBackslash b.
Proof.
  induction a as [|c a IH]; [reflexivity|].
  rewrite str_app_cons. simpl. rewrite IH. apply andb_assoc.
Qed.

Lemma Index_noBackslash (a : string) :
  noBackslash a = true -> Index a lineSeparator = None.
Proof.
  induction a as [|c a IH]; intros H; [reflexivity|].
  apply noBackslash_cons in H as [Hc Ha].
  rewrite Index_unfold, (HasPrefix_separator_other c a Hc), (IH Ha). reflexivity.
Qed.

Lemma Index_separator (a r : string) :
  noBackslash a = true ->
  Index (a ++ lineSeparator ++ r)%string lineSeparator = Some (String.length a).
Proof.
  induction a as [|c a IH]; intros H.
  - rewrite str_app_nil_l, Index_unfold, HasPrefix_app. reflexivity.
  - apply noBackslash_cons in H as [Hc Ha].
    rewrite str_app_cons, Index_unfold, (HasPrefix_separator_other c _ Hc), (IH Ha).
    reflexivity.
Qed.

Lemma strDrop_app_more (a b r : string) :
  strDrop (String.length a + String.length b) (a ++ b ++ r)%string = r.
Proof.
  rewrite <- str_length_app, <- str_app_assoc. apply strDrop_app.
Qed.

Lemma Join_cons (part next : string) (rest : list string) (sep : string) :
  Join (part :: next :: rest) sep = (part ++ sep ++ Join (next :: rest) sep)%string.
Proof. reflexivity. Qed.

Lemma splitLoop_Join (lines : list string) :
  forall (line : string) (fuel : nat),
    Forall (fun s => noBackslash s = true) (line :: lines) ->
    length lines <= fuel ->
    splitLoop fuel (Join (line :: lines) lineSeparator) lineSeparator = line :: lines.
Proof.
  induction lines as [|next rest IH]; intros line fuel Hall Hfuel.
  - simpl Join. rewrite splitLoop_unfold, Index_noBackslash; [reflexivity|].
    inversion Hall; assumption.
  - rewrite Join_cons, splitLoop_unfold.
    inversion Hall as [|? ? Hline Hrest]; subst.
    rewrite (Index_separator line _ Hline).
    destruct fuel as [|fuel]; [simpl in Hfuel; lia|].
    rewrite strTake_app, strDrop_app_more.
    rewrite (IH next fuel Hrest); [reflexivity|]. simpl in Hfuel. lia.
Qed.

Lemma Join_length (lines : list string) :
  forall line, length lines <= String.length (Join (line :: lines) lineSeparator).
Proof.
  induction lines as [|next rest IH]; intros line; [simpl; lia|].
  rewrite Join_cons, !str_length_app. specialize (IH next). simpl in *. lia.
Qed.

(** Splitting the joined lines gives the lines back, when no line holds a
    backslash. *)
Lemma Split_Join (line : string) (lines : list string) :
  Forall (fun s => noBackslash s = true) (line :: lines) ->
  Split (Join (line :: lines) lineSeparator) lineSeparator = line :: lines.
Proof.
  intros Hall. unfold Split. apply splitLoop_Join; [exact Hall|]. apply Join_length.
Qed.

Lemma serverError_inner (body : string) :
  TrimPrefix (TrimSuffix (serverError body) serverErrorSuffix) serverErrorPrefix = body.
Proof.
  unfold serverError. rewrite <- str_app_assoc, TrimSuffix_app. apply TrimPrefix_app.
Qed.

Lemma unready_fold (lines : list string) :
  forall (acc : gset string) (x : string),
    x ∈ foldl (fun unreadyComponents line =>
                 let name := componentName line in
                 if decide (name <> line) then setInsert unreadyComponents [name]
                 else unreadyComponents) acc lines
    <-> x ∈ acc
        \/ exists line, In line lines /\ componentName line <> line /\ x = componentName line.
Proof.
  induction lines as [|line lines IH]; intros acc x.
  - simpl. split; [auto|]. intros [H|(l & [] & _)]. exact H.
  - simpl foldl. rewrite IH. cbv zeta.
    destruct (decide (componentName line <> line)) as [Hc|Hc].
    + rewrite setInsert_elem. simpl. split.
      * intros [[H|[H|[]]]|(l & Hl & Hn & Hx)].
        -- left; exact H.
        -- right. exists line. split; [left; reflexivity|]. split; [exact Hc|].
           symmetry; exact H.
        -- right. exists l. split; [right; exact Hl|]. split; assumption.
      * intros [H|(l & [Hl|Hl] & Hn & Hx)].
        -- left; left; exact H.
        -- subst l. left; right; left. symmetry; exact Hx.
        -- right. exists l. split; [exact Hl|]. split; assumption.
    + split.
      * intros [H|(l & Hl & Hn & Hx)]; [left; exact H|]. right. exists l.
        split; [right; exact Hl|]. split; assumption.
      * intros [H|(l & [Hl|Hl] & Hn & Hx)]; [left; exact H| |].
        -- subst l. contradiction.
        -- right. exists l. split; [exact Hl|]. split; assumption.
Qed.

(** The components read from a server error around lines without backslash. *)
Lemma unready_of_lines (line : string) (lines : list string) (x : string) :
  Forall (fun s => noBackslash s = true) (line :: lines) ->
  x ∈ unreadyComponentsFromError (serverError (Join (line :: lines) lineSeparator))
  <-> exists l, In l (line :: lines) /\ componentName l <> l /\ x = componentName l.
Proof.
  intros Hall. unfold unreadyComponentsFromError. cbv zeta.
  rewrite serverError_inner, (Split_Join line lines Hall), unready_fold.
  split; [|auto]. intros [H|H]; [|exact H].
  exfalso. exact (not_elem_of_empty (C := gset string) x H).
Qed.

(** ** [unreadyComponentsFromError] *)

(** X10: from the error that wraps the lines of a /readyz answer (lines
    without backslash, joined by backslash-n), the function returns the
    names of exactly those lines that end with the withheld reason or start
    with the mark of a failed check; the name is the line without that end
    and, after it is cut, without the mark.  A line that has only one of the
    two counts as well, and every other line is left out. *)
Theorem unreadyComponentsFromError_reads_lines (line : string) (lines : list string)
    (x : string) :
  Forall (fun s => noBackslash s = true) (line :: lines) ->
  x ∈ unreadyComponentsFromError (serverError (Join (line :: lines) lineSeparator))
  <-> exists l,
        In l (line :: lines)
        /\ (HasSuffix l " failed: reason withheld" = true \/ HasPrefix l "[-]" = true)
        /\ x = TrimPrefix (TrimSuffix l " failed: reason withheld") "[-]".
Proof.
  intros Hall. rewrite (unready_of_lines line lines x Hall).
  split; intros (l & Hl & Hc & Hx); exists l; (split; [exact Hl|]); (split; [|exact Hx]).
  - apply componentName_changed. exact Hc.
  - apply componentName_changed. exact Hc.
Qed.

Lemma unreadyComponentsFromError_reads_lines_witness :
  "etcd" ∈ unreadyComponentsFromError
             (serverError "[+]ping ok\n[-]etcd failed: reason withheld\nreadyz check failed")
  /\ "informer" ∈ unreadyComponentsFromError
                    (serverError "[+]ping ok\ninformer failed: reason withheld").
Proof.
  split.
  - apply (proj2 (unreadyComponentsFromError_reads_lines "[+]ping ok"
                    ["[-]etcd failed: reason withheld"; "readyz check failed"] "etcd"
                    ltac:(repeat constructor))).
    exists "[-]etcd failed: reason withheld".
    split; [right; left; reflexivity|]. split; [left; reflexivity|reflexivity].
  - apply (proj2 (unreadyComponentsFromError_reads_lines "[+]ping ok"
                    ["informer failed: reason withheld"] "informer"
                    ltac:(repeat constructor))).
    exists "informer failed: reason withheld".
    split; [right; left; reflexivity|]. split; [left; reflexivity|reflexivity].
Defined.

Lemma passed_line_is_no_component (name : string) :
  componentName ("[+]" ++ name ++ " ok")%string = ("[+]" ++ name ++ " ok")%string.
Proof.
  destruct (decide (componentName ("[+]" ++ name ++ " ok")%string
                    = ("[+]" ++ name ++ " ok")%string)) as [H|H]; [exact H|].
  exfalso. apply componentName_changed in H as [H|H].
  - apply HasSuffix_inv in H as [a Ha].
    assert (Hl : ("[+]" ++ name ++ " ok")%string
                 = (("[+]" ++ name ++ " o") ++ String "k" EmptyString)%string)
      by (rewrite !str_app_assoc; reflexivity).
    assert (Hr : (a ++ reasonWithheld)%string
                 = ((a ++ " failed: reason withhel") ++ String "d" EmptyString)%string)
      by (rewrite str_app_assoc; reflexivity).
    rewrite Hl, Hr in Ha. apply str_app_last in Ha. discriminate.
  - discriminate.
Qed.

Lemma failed_line_component (name : string) :
  componentName (failedMark ++ name ++ reasonWithheld)%string = name
  /\ componentName (failedMark ++ name ++ reasonWithheld)%string
     <> (failedMark ++ name ++ reasonWithheld)%string.
Proof.
  split.
  - unfold componentName. rewrite <- str_app_assoc, TrimSuffix_app. apply TrimPrefix_app.
  - apply componentName_changed. left.
    rewrite <- str_app_assoc. apply HasSuffix_app.
Qed.

Lemma readyzLine_noBackslash (check : bool * string) :
  noBackslash check.2 = true -> noBackslash (readyzLine check) = true.
Proof.
  intros H. unfold readyzLine. destruct check.1; rewrite !noBackslash_app, H; reflexivity.
Qed.

(** X11: a /readyz answer comes back as the set of its failed checks: for
    checks whose names hold no backslash, written one per line as the server
    writes them (passed: "[+]name ok", failed: "[-]name failed: reason
    withheld") and wrapped into the client's error, the function returns
    exactly the names of the failed ones. *)
Theorem unreadyComponentsFromError_round_trip (check : bool * string)
    (checks : list (bool * string)) :
  Forall (fun c : bool * string => noBackslash c.2 = true) (check :: checks) ->
  unreadyComponentsFromError
    (serverError (Join (List.map readyzLine (check :: checks)) lineSeparator))
  = list_to_set (failedChecks (check :: checks)).
Proof.
  intros Hall. apply set_eq. intros x.
  change (List.map readyzLine (check :: checks))
    with (readyzLine check :: List.map readyzLine checks).
  rewrite unready_of_lines.
  2:{ change (readyzLine check :: List.map readyzLine checks)
        with (List.map readyzLine (check :: checks)).
      apply Forall_forall. intros l Hl. apply list_elem_of_In, in_map_iff in Hl.
      destruct Hl as (c & <- & Hc). apply readyzLine_noBackslash.
      rewrite Forall_forall in Hall. apply Hall, list_elem_of_In. exact Hc. }
  change (readyzLine check :: List.map readyzLine checks)
    with (List.map readyzLine (check :: checks)).
  rewrite elem_of_list_to_set, list_elem_of_In. unfold failedChecks.
  rewrite in_map_iff. split.
  - intros (l & Hl & Hc & Hx). apply in_map_iff in Hl as (c & <- & Hin).
    destruct c as [[|] name].
    + exfalso. apply Hc. exact (passed_line_is_no_component name).
    + exists (false, name). split.
      * rewrite Hx. symmetry. exact (proj1 (failed_line_component name)).
      * apply filter_In. split; [exact Hin|reflexivity].
  - intros ([ok name] & Hx & Hin). simpl in Hx. subst x.
    apply filter_In in Hin as [Hin Hok]. simpl in Hok. destruct ok; [discriminate|].
    exists (readyzLine (false, name)). split; [apply in_map; exact Hin|].
    destruct (failed_line_component name) as [H1 H2].
    split; [exact H2|symmetry; exact H1].
Qed.

Lemma unreadyComponentsFromError_round_trip_witness :
  unreadyComponentsFromError
    (serverError "[+]ping ok\n[-]etcd failed: reason withheld\n[-]poststarthook/start failed: reason withheld")
  = list_to_set ["etcd"; "poststarthook/start"].
Proof.
  exact (unreadyComponentsFromError_round_trip (true, "ping")
           [(false, "etcd"); (false, "poststarthook/start")]
           ltac:(repeat constructor)).
Defined.

(** X12: when the answer was cut off inside a line, the line that starts
    with the mark of a failed check but lacks the withheld reason still
    yields a component: the cut-off name, as the note in the source says. *)
Theorem unreadyComponentsFromError_truncated_line (line : string) (lines : list string)
    (cut : string) :
  Forall (fun s => noBackslash s = true) (line :: lines) ->
  In ("[-]" ++ cut)%string (line :: lines) ->
  HasSuffix ("[-]" ++ cut)%string " failed: reason withheld" = false ->
  cut ∈ unreadyComponentsFromError (serverError (Join (line :: lines) lineSeparator)).
Proof.
  intros Hall Hin Hcut. apply (unready_of_lines line lines cut Hall).
  exists ("[-]" ++ cut)%string. split; [exact Hin|].
  assert (Hname : componentName ("[-]" ++ cut)%string = cut).
  { unfold componentName, TrimSuffix. fold reasonWithheld in Hcut. rewrite Hcut.
    apply (TrimPrefix_app failedMark cut). }
  split; [|symmetry; exact Hname].
  apply componentName_changed. right. apply (HasPrefix_app failedMark cut).
Qed.

Lemma unreadyComponentsFromError_truncated_line_witness :
  "poststar" ∈ unreadyComponentsFromError (serverError "[+]ping ok\n[-]poststar").
Proof.
  apply (unreadyComponentsFromError_truncated_line "[+]ping ok" ["[-]poststar"] "poststar").
  - repeat constructor.
  - right. left. reflexivity.
  - reflexivity.
Defined.
